(** * Difficulty retargeting and the network registry of [chaincfg/params.go]

    A shallow embedding of the retargeting functions
    ([calcDiffAdjustBitcoin], [BTCDiff], [LTCDiff], [calcDiffAdjustKGW],
    [VTCTestDiff]) and of the package-level registry ([Register],
    [RegisterHDKeyID], [HDPrivateKeyToPublicKeyID]), followed by the
    properties established about them. *)

From Stdlib Require Import ZArith List Bool Lia String.
From Stdlib Require Strings.Byte.
From stdpp Require Import gmap strings.

Local Open Scope Z_scope.

(** ** Machine integers

    Go's fixed-width integers are carried as [Z]; every operation that can
    leave the range is followed by the conversion that wraps it. *)

Definition uint32 (z : Z) : Z := z mod 2 ^ 32.
Definition int32 (z : Z) : Z := (z + 2 ^ 31) mod 2 ^ 32 - 2 ^ 31.
Definition int64 (z : Z) : Z := (z + 2 ^ 63) mod 2 ^ 64 - 2 ^ 63.

(** ** Errors and outcomes *)

Inductive error : Type :=
| ErrDuplicateNet
| ErrUnknownHDKeyID
| ErrInvalidHDKeyID
| EOF
| ErrUnexpectedEOF
| ErrNegativePosition
| ErrIO (code : Z).

(** What running a piece of Go code can do: deliver a value, hand an [error]
    back to the caller, or panic (integer division by zero). *)
Inductive outcome (A : Type) : Type :=
| Ret (a : A)
| Fail (e : error)
| Panic.

Arguments Ret {A} a.
Arguments Fail {A} e.
Arguments Panic {A}.

Definition obind {A B : Type} (o : outcome A) (k : A -> outcome B) : outcome B :=
  match o with
  | Ret a => k a
  | Fail e => Fail e
  | Panic => Panic
  end.

(** [a / b] and [a % b] on int32/int64: truncated division, a run-time panic
    on a zero divisor; [wrap] is the conversion to the operand type (the only
    quotient that leaves the range is MinInt / -1). *)
Definition go_div (wrap : Z -> Z) (a b : Z) : outcome Z :=
  if b =? 0 then Panic else Ret (wrap (Z.quot a b)).

Definition go_rem (wrap : Z -> Z) (a b : Z) : outcome Z :=
  if b =? 0 then Panic else Ret (wrap (Z.rem a b)).

(** ** [math/big]

    [big.Int] values are [Z]. [Div] is Euclidean division and panics on a zero
    divisor. *)

Definition big_Div (x y : Z) : outcome Z :=
  if y =? 0 then Panic
  else if 0 <? y then Ret (x / y)
  else Ret (- (x / (- y))).

(** [len(n.Bytes())]: the number of bytes of the magnitude of [n]. *)
Definition big_Bytes_len (n : Z) : Z :=
  if n =? 0 then 0 else Z.log2 (Z.abs n) / 8 + 1.

(** ** [time]

    A [time.Time] is the number of nanoseconds since the Unix epoch, a
    [time.Duration] is an int64 count of nanoseconds. *)

Definition Time : Type := Z.
Definition Duration : Type := Z.

Definition Nanosecond : Duration := 1.
Definition Second : Duration := 1000000000.
Definition Minute : Duration := 60 * Second.
Definition Hour : Duration := 60 * Minute.

Definition time_Unix (sec nsec : Z) : Time := sec * 1000000000 + nsec.
Definition Time_Unix (t : Time) : Z := t / 1000000000.
Definition Time_UnixNano (t : Time) : Z := int64 t.
Definition Time_Add (t : Time) (d : Duration) : Time := t + d.
Definition Time_After (t u : Time) : bool := u <? t.

(** ** float64

    Two computations of the package go through float64. They are kept as
    operations of a class, so that everything below holds for whatever
    float64 arithmetic gives:
    - [fractionalSeconds d] is [int64(d.Seconds())] for a duration [d] that
      is not a whole number of seconds ([Seconds] adds the float64 quotient
      of the nanosecond remainder to the whole seconds);
    - [eventHorizon blocksScanned targetRate actualRate] is the test
      [rateAdjustmentRatio <= eventHorizonDevationSlow ||
       rateAdjustmentRatio >= eventHorizonDeviationFast] of the gravity well,
      where the ratio is [float64(targetRate) / float64(actualRate)] (1 when
      either is 0) and the deviation is
      [1 + 0.7084 * math.Pow(float64(blocksScanned) / 144, -1.228)]. *)
Class Float64Ops : Type := {
  fractionalSeconds : Duration -> Z;
  eventHorizon : Z -> Z -> Z -> bool
}.

(** [int64(d.Seconds())]. For a whole number of seconds,
    [float64(d / Second)] is exact and the float64 remainder term is 0. *)
Definition Duration_Seconds_int64 {F : Float64Ops} (d : Duration) : Z :=
  if Z.rem d Second =? 0 then Z.quot d Second else fractionalSeconds d.

(** ** Package [difficulty] *)

Module difficulty.

(** Modelled from the spec: [difficulty.CompactToBig] is imported from
    [chaincfg/difficulty], which is not among the sources. Compact form is
    one exponent byte (number of significant bytes) followed by three
    mantissa bytes whose top bit is the sign flag. *)
Definition CompactToBig (compact : Z) : Z :=
  let mantissa := Z.land compact 0x007fffff in
  let isNegative := negb (Z.land compact 0x00800000 =? 0) in
  let exponent := Z.shiftr compact 24 in
  let bn :=
    if exponent <=? 3
    then Z.shiftr mantissa (8 * (3 - exponent))
    else Z.shiftl mantissa (8 * (exponent - 3)) in
  if isNegative then - bn else bn.

(** Modelled from the spec: [difficulty.BigToCompact], the inverse codec;
    when the most significant mantissa byte would set the sign flag the
    mantissa is shifted down one byte and the exponent incremented. *)
Definition BigToCompact (n : Z) : Z :=
  if n =? 0 then 0
  else
    let exponent := big_Bytes_len n in
    let mantissa :=
      if exponent <=? 3
      then uint32 (Z.shiftl (uint32 (Z.abs n)) (8 * (3 - exponent)))
      else uint32 (Z.shiftr (Z.abs n) (8 * (exponent - 3))) in
    let normalised :=
      if Z.land mantissa 0x00800000 =? 0
      then (mantissa, exponent)
      else (Z.shiftr mantissa 8, exponent + 1) in
    let compact := Z.lor (uint32 (Z.shiftl (snd normalised) 24)) (fst normalised) in
    if n <? 0 then Z.lor compact 0x00800000 else compact.

End difficulty.

(** The target an exponent and a mantissa stand for. *)
Definition compactValue (e m : Z) : Z :=
  if e <=? 3 then Z.shiftr m (8 * (3 - e)) else Z.shiftl m (8 * (e - 3)).

(** ** Package [wire]: block headers *)

(** Modelled from the spec: [wire.BlockHeader] is not among the sources; the
    fields are those of the 80-byte header. [PrevBlock] and [MerkleRoot] are
    32-byte hashes. *)
Record BlockHeader : Type := mkBlockHeader {
  Version : Z;
  PrevBlock : list Byte.byte;
  MerkleRoot : list Byte.byte;
  Timestamp : Time;
  Bits : Z;
  Nonce : Z
}.

(** ** Network parameters

    The fields of [Params] that the retargeting functions and the registry
    read. *)

Record Params : Type := mkParams {
  Name : string;
  Net : Z;
  PowLimit : Z;
  PowLimitBits : Z;
  TargetTimespan : Duration;
  TargetTimePerBlock : Duration;
  RetargetAdjustmentFactor : Z;
  ReduceMinDifficulty : bool;
  MinDiffReductionTime : Duration;
  Bech32HRPSegwit : string;
  PubKeyHashAddrID : Byte.byte;
  ScriptHashAddrID : Byte.byte;
  HDPrivateKeyID : Byte.byte * Byte.byte * Byte.byte * Byte.byte;
  HDPublicKeyID : Byte.byte * Byte.byte * Byte.byte * Byte.byte
}.

(** ** [calcDiffAdjustBitcoin] *)

Definition clampDuration (lo hi duration : Z) : Z :=
  if duration <? lo then lo
  else if hi <? duration then hi
  else duration.

(** The first half of [calcDiffAdjustBitcoin]: the time between the two
    headers, limited to the retarget bounds. *)
Definition retargetDuration {F : Float64Ops} (start end_ : BlockHeader) (p : Params)
  : outcome Z :=
  obind (go_div int64 (Duration_Seconds_int64 (TargetTimespan p)) (RetargetAdjustmentFactor p))
    (fun minRetargetTimespan =>
  let maxRetargetTimespan :=
    int64 (Duration_Seconds_int64 (TargetTimespan p) * RetargetAdjustmentFactor p) in
  let duration :=
    int64 (Time_UnixNano (Timestamp end_) - Time_UnixNano (Timestamp start)) in
  Ret (clampDuration minRetargetTimespan maxRetargetTimespan duration)).

Definition calcDiffAdjustBitcoin {F : Float64Ops} (start end_ : BlockHeader) (p : Params)
  : outcome Z :=
  obind (retargetDuration start end_ p) (fun duration =>
  let prevTarget := difficulty.CompactToBig (Bits start) in
  let newTarget := prevTarget * duration in
  obind (go_div int64 (TargetTimespan p) Second) (fun timespanSeconds =>
  obind (big_Div newTarget timespanSeconds) (fun newTarget =>
  let powLimit := difficulty.CompactToBig (PowLimitBits p) in
  let newTarget := if powLimit <? newTarget then powLimit else newTarget in
  Ret (difficulty.BigToCompact newTarget)))).

(** ** The header accessor

    The retargeting functions take an [io.ReadSeeker] and use it through
    [r.Seek(offset, os.SEEK_SET)] and [header.Deserialize(r)] only. The
    interface gives the reader after each operation next to its result. *)

Class ReadSeeker (R : Type) : Type := {
  rs_Seek : Z -> R -> option error * R;
  rs_ReadFull : nat -> R -> (error + list Byte.byte) * R
}.

(** Little-endian decoding and encoding of unsigned integers. *)
Fixpoint le_combine (l : list Byte.byte) : Z :=
  match l with
  | nil => 0
  | b :: t => Z.of_N (Byte.to_N b) + 256 * le_combine t
  end.

Definition byte_of_Z (z : Z) : Byte.byte :=
  match Byte.of_N (Z.to_N (z mod 256)) with
  | Some b => b
  | None => Byte.x00
  end.

Fixpoint le_split (n : nat) (z : Z) : list Byte.byte :=
  match n with
  | O => nil
  | S n' => byte_of_Z z :: le_split n' (z / 256)
  end.

Definition slice (from len : nat) (l : list Byte.byte) : list Byte.byte :=
  firstn len (skipn from l).

(** Modelled from the spec: package [wire] is not among the sources. A
    serialized header is 80 bytes: 4-byte version, 32-byte previous hash,
    32-byte merkle root, 4-byte timestamp (seconds), 4-byte bits, 4-byte
    nonce, all little-endian. *)
Definition parseHeader (bs : list Byte.byte) : BlockHeader :=
  {| Version := int32 (le_combine (slice 0 4 bs));
     PrevBlock := slice 4 32 bs;
     MerkleRoot := slice 36 32 bs;
     Timestamp := time_Unix (le_combine (slice 68 4 bs)) 0;
     Bits := le_combine (slice 72 4 bs);
     Nonce := le_combine (slice 76 4 bs) |}.

(** The inverse layout, used to build header stores. *)
Definition serializeHeader (h : BlockHeader) : list Byte.byte :=
  le_split 4 (Version h mod 2 ^ 32)
  ++ firstn 32 (PrevBlock h ++ repeat Byte.x00 32)
  ++ firstn 32 (MerkleRoot h ++ repeat Byte.x00 32)
  ++ le_split 4 (Time_Unix (Timestamp h))
  ++ le_split 4 (Bits h)
  ++ le_split 4 (Nonce h).

(** What a call did to its accessor, in order. *)
Inductive event : Type :=
| Sought (offset : Z) (err : option error)
| Deserialized (h : BlockHeader)
| DeserializeFailed (e : error).

Definition failure (ev : event) : option error :=
  match ev with
  | Sought _ err => err
  | Deserialized _ => None
  | DeserializeFailed e => Some e
  end.

(** A computation over an accessor: its outcome, the accessor afterwards and
    the operations performed. [Fail e] stands for the Go statement
    [return 0, err]. *)
Definition M (R A : Type) : Type := R -> outcome A * R * list event.

Definition mret {R A : Type} (a : A) : M R A := fun r => (Ret a, r, nil).

Definition mbind {R A B : Type} (m : M R A) (k : A -> M R B) : M R B :=
  fun r =>
    match m r with
    | (Ret a, r1, t1) =>
        match k a r1 with
        | (o, r2, t2) => (o, r2, t1 ++ t2)
        end
    | (Fail e, r1, t1) => (Fail e, r1, t1)
    | (Panic, r1, t1) => (Panic, r1, t1)
    end.

Definition lift {R A : Type} (o : outcome A) : M R A := fun r => (o, r, nil).

Notation "x <- m ;; k" := (mbind m (fun x => k))
  (at level 200, m at level 99, right associativity).

(** The three components of a finished call, and the pair a Go caller
    receives from a [(uint32, error)] function ([None] when it panicked). *)
Definition result {A R : Type} (x : outcome A * R * list event) : outcome A := fst (fst x).
Definition trace {A R : Type} (x : outcome A * R * list event) : list event := snd x.

Definition returned (o : outcome Z) : option (Z * option error) :=
  match o with
  | Ret bits => Some (bits, None)
  | Fail e => Some (0, Some e)
  | Panic => None
  end.

Section Accessor.

Context {F : Float64Ops} {R : Type} {RS : ReadSeeker R}.

(** [_, err = r.Seek(offset, os.SEEK_SET); if err != nil { return 0, err }] *)
Definition Seek (offset : Z) : M R unit :=
  fun r =>
    match rs_Seek offset r with
    | (Some e, r') => (Fail e, r', Sought offset (Some e) :: nil)
    | (None, r') => (Ret tt, r', Sought offset None :: nil)
    end.

(** [err = header.Deserialize(r); if err != nil { return 0, err }] *)
Definition Deserialize : M R BlockHeader :=
  fun r =>
    match rs_ReadFull 80 r with
    | (inl e, r') => (Fail e, r', DeserializeFailed e :: nil)
    | (inr bs, r') => (Ret (parseHeader bs), r', Deserialized (parseHeader bs) :: nil)
    end.

(** Seeking to an offset and deserializing the header there. *)
Definition readHeaderAt (offset : Z) : M R BlockHeader :=
  _ <- Seek offset ;; Deserialize.

Definition epochLengthOf (p : Params) : outcome Z :=
  obind (go_div int64 (TargetTimespan p) (TargetTimePerBlock p)) (fun q => Ret (int32 q)).

(** The difficulty of a block that does not start an epoch. *)
Definition notNewEpoch (cur prev epochStart : BlockHeader) (p : Params) : Z :=
  let rightBits := Bits epochStart in
  if ReduceMinDifficulty p
     && Time_After (Timestamp cur)
          (Time_Add (Timestamp prev) (int64 (TargetTimePerBlock p * 2)))
  then PowLimitBits p
  else rightBits.

Definition BTCDiff (r : R) (height startheight : Z) (p : Params)
  : outcome Z * R * list event :=
  (epochLength <- lift (epochLengthOf p) ;;
   let offsetHeight := int32 (height - startheight) in
   _ <- Seek (int32 (80 * int32 (offsetHeight - 1))) ;;
   prev <- Deserialize ;;
   _ <- Seek (int32 (80 * offsetHeight)) ;;
   cur <- Deserialize ;;
   m <- lift (go_rem int32 height epochLength) ;;
   _ <- Seek (int32 (80 * int32 (offsetHeight - m))) ;;
   epochStart <- Deserialize ;;
   if m =? 0
   then lift (calcDiffAdjustBitcoin epochStart prev p)
   else mret (notNewEpoch cur prev epochStart p)) r.

Definition LTCDiff (r : R) (height startheight : Z) (p : Params)
  : outcome Z * R * list event :=
  (epochLength <- lift (epochLengthOf p) ;;
   let offsetHeight := int32 (height - startheight) in
   _ <- Seek (int32 (80 * int32 (offsetHeight - 1))) ;;
   prev <- Deserialize ;;
   _ <- Seek (int32 (80 * offsetHeight)) ;;
   cur <- Deserialize ;;
   m <- lift (go_rem int32 height epochLength) ;;
   _ <- Seek (int32 (80 * int32 (offsetHeight - m))) ;;
   epochStart <- Deserialize ;;
   if m =? 0
   then
     _ <- (if height =? epochLength
           then Seek 0
           else Seek (int32 (offsetHeight - epochLength))) ;;
     epochStart <- Deserialize ;;
     lift (calcDiffAdjustBitcoin epochStart prev p)
   else mret (notNewEpoch cur prev epochStart p)) r.

End Accessor.

(** ** [calcDiffAdjustKGW] and [VTCTestDiff] *)

(** The variables of the scan loop that survive an iteration. *)
Record kgwState : Type := mkKgwState {
  currentBlock : BlockHeader;
  currentHeight : Z;
  blocksScanned : Z;
  actualRate : Z;
  targetRate : Z;
  difficultyAverage : Z;
  previousDifficultyAverage : Z
}.

Definition minBlocks : Z := 144.
Definition maxBlocks : Z := 4032.

Section KimotoGravityWell.

Context {F : Float64Ops} {R : Type} {RS : ReadSeeker R}.

(** One [difficultyAverage] update of the scan. *)
Definition kgwAverage (i : Z) (cb : BlockHeader) (previous : Z) : outcome Z :=
  if i =? 1 then Ret (difficulty.CompactToBig (Bits cb))
  else
    let compact := difficulty.CompactToBig (Bits cb) in
    obind (big_Div (compact - previous) (int64 i)) (fun difference =>
    Ret (difference + previous)).

(** [for i = 1; currentHeight != 1; i++ { ... }]. The loop leaves through
    its condition or one of its three [break]s with [Some] state; [None]
    means the fuel ran out first. *)
Fixpoint kgwScan (fuel : nat) (startheight : Z) (p : Params)
    (lastSolved : BlockHeader) (i : Z) (st : kgwState) : M R (option kgwState) :=
  match fuel with
  | O => mret None
  | S fuel' =>
      if currentHeight st =? 1 then mret (Some st)
      else if maxBlocks <? i then mret (Some st)
      else
        let scanned := int64 (blocksScanned st + 1) in
        avg <- lift (kgwAverage i (currentBlock st) (previousDifficultyAverage st)) ;;
        let actual :=
          int64 (Time_Unix (Timestamp lastSolved) - Time_Unix (Timestamp (currentBlock st))) in
        let target := int64 (Duration_Seconds_int64 (TargetTimePerBlock p) * scanned) in
        let actual := if actual <? 0 then 0 else actual in
        let st1 :=
          {| currentBlock := currentBlock st;
             currentHeight := currentHeight st;
             blocksScanned := scanned;
             actualRate := actual;
             targetRate := target;
             difficultyAverage := avg;
             previousDifficultyAverage := avg |} in
        if (minBlocks <=? scanned) && eventHorizon scanned target actual
        then mret (Some st1)
        else if currentHeight st <? 1 then mret (Some st1)
        else
          let height' := int32 (currentHeight st - 1) in
          _ <- Seek (int32 (80 * int32 (height' - startheight))) ;;
          cb <- Deserialize ;;
          kgwScan fuel' startheight p lastSolved (int32 (i + 1))
            {| currentBlock := cb;
               currentHeight := height';
               blocksScanned := scanned;
               actualRate := actual;
               targetRate := target;
               difficultyAverage := avg;
               previousDifficultyAverage := avg |}
  end.

(** The target computed after the scan. *)
Definition kgwTarget (p : Params) (st : kgwState) : outcome Z :=
  obind
    (if negb (actualRate st =? 0) && negb (targetRate st =? 0)
     then big_Div (difficultyAverage st * actualRate st) (targetRate st)
     else Ret (difficultyAverage st))
    (fun newTarget =>
       Ret (if PowLimit p <? newTarget then PowLimit p else newTarget)).

Definition calcDiffAdjustKGW (r : R) (height startheight : Z) (p : Params)
  : outcome Z * R * list event :=
  (if int32 (height - 1) <? minBlocks
   then mret (PowLimitBits p)
   else
     let offsetHeight := int32 (int32 (height - startheight) - 1) in
     _ <- Seek (int32 (80 * offsetHeight)) ;;
     cb <- Deserialize ;;
     let lastSolved := cb in
     scan <- kgwScan (Z.to_nat (maxBlocks + 1)) startheight p lastSolved 1
       {| currentBlock := cb;
          currentHeight := int32 (height - 1);
          blocksScanned := 0;
          actualRate := 0;
          targetRate := 0;
          difficultyAverage := 0;
          previousDifficultyAverage := 0 |} ;;
     match scan with
     | None => lift Panic
     | Some st =>
         newTarget <- lift (kgwTarget p st) ;;
         mret (difficulty.BigToCompact newTarget)
     end) r.

Definition VTCTestDiff (r : R) (height startheight : Z) (p : Params)
  : outcome Z * R * list event :=
  if height <? 2116
  then LTCDiff r height startheight p
  else
    let offsetHeight := int32 (height - startheight) in
    if negb (Z.rem height 12 =? 0)
    then
      (_ <- Seek (int32 (80 * int32 (offsetHeight - 1))) ;;
       prev <- Deserialize ;;
       mret (Bits prev)) r
    else calcDiffAdjustKGW r height startheight p.

End KimotoGravityWell.

(** ** A header store held in memory

    The accessor over a byte string: [Seek] rejects negative offsets and
    accepts any other; reading 80 bytes fails with [EOF] at or past the end
    and with [ErrUnexpectedEOF] when fewer than 80 bytes are left. *)

Record bytesReader : Type := mkBytesReader {
  br_data : list Byte.byte;
  br_pos : Z
}.

Definition bytes_Seek (offset : Z) (r : bytesReader) : option error * bytesReader :=
  if offset <? 0 then (Some ErrNegativePosition, r)
  else (None, {| br_data := br_data r; br_pos := offset |}).

Definition bytes_ReadFull (n : nat) (r : bytesReader)
  : (error + list Byte.byte) * bytesReader :=
  let rest := skipn (Z.to_nat (br_pos r)) (br_data r) in
  if (length rest =? 0)%nat then (inl EOF, r)
  else if (length rest <? n)%nat
  then (inl ErrUnexpectedEOF,
        {| br_data := br_data r; br_pos := Z.of_nat (length (br_data r)) |})
  else (inr (firstn n rest),
        {| br_data := br_data r; br_pos := br_pos r + Z.of_nat n |}).

#[export] Instance bytesReader_ReadSeeker : ReadSeeker bytesReader :=
  {| rs_Seek := bytes_Seek; rs_ReadFull := bytes_ReadFull |}.

(** A store holding the given headers back to back, positioned at its
    start. *)
Definition storeOf (hs : list BlockHeader) : bytesReader :=
  {| br_data := flat_map serializeHeader hs; br_pos := 0 |}.

(** [n] headers spaced [spacing] seconds apart from [t0], all with the same
    bits. *)
Definition syntheticHeader (t0 spacing bits : Z) (k : nat) : BlockHeader :=
  {| Version := 1;
     PrevBlock := repeat Byte.x00 32;
     MerkleRoot := repeat Byte.x00 32;
     Timestamp := time_Unix (t0 + Z.of_nat k * spacing) 0;
     Bits := bits;
     Nonce := 0 |}.

Definition syntheticHeaders (n : nat) (t0 spacing bits : Z) : list BlockHeader :=
  map (syntheticHeader t0 spacing bits) (seq 0 n).

(** ** Parameter tables

    The difficulty and registry fields of the default networks. The network
    magic comes from package [wire] and is left as an argument. *)

Definition mainPowLimit : Z := Z.shiftl 1 224 - 1.
Definition regressionPowLimit : Z := Z.shiftl 1 255 - 1.
Definition testNet3PowLimit : Z := Z.shiftl 1 224 - 1.

Definition MainNetParams (MainNet : Z) : Params :=
  {| Name := "mainnet";
     Net := MainNet;
     PowLimit := mainPowLimit;
     PowLimitBits := 0x1e0fffff;
     TargetTimespan := Hour * 24 * 7 / 2;
     TargetTimePerBlock := Minute * 5 / 2;
     RetargetAdjustmentFactor := 4;
     ReduceMinDifficulty := false;
     MinDiffReductionTime := 0;
     Bech32HRPSegwit := "vtc";
     PubKeyHashAddrID := Byte.x47;
     ScriptHashAddrID := Byte.x05;
     HDPrivateKeyID := (Byte.x04, Byte.x88, Byte.xad, Byte.xe4);
     HDPublicKeyID := (Byte.x04, Byte.x88, Byte.xb2, Byte.x1e) |}.

Definition RegressionNetParams (TestNet : Z) : Params :=
  {| Name := "regtest";
     Net := TestNet;
     PowLimit := regressionPowLimit;
     PowLimitBits := 0x207fffff;
     TargetTimespan := Hour * 24 * 14;
     TargetTimePerBlock := Minute * 10;
     RetargetAdjustmentFactor := 4;
     ReduceMinDifficulty := true;
     MinDiffReductionTime := Minute * 20;
     Bech32HRPSegwit := "rvtc";
     PubKeyHashAddrID := Byte.x4a;
     ScriptHashAddrID := Byte.xc4;
     HDPrivateKeyID := (Byte.x04, Byte.x35, Byte.x83, Byte.x94);
     HDPublicKeyID := (Byte.x04, Byte.x35, Byte.x87, Byte.xcf) |}.

Definition TestNet3Params (TestNet3 : Z) : Params :=
  {| Name := "testnet3";
     Net := TestNet3;
     PowLimit := testNet3PowLimit;
     PowLimitBits := 0x1e0fffff;
     TargetTimespan := Hour * 24 * 7 / 2;
     TargetTimePerBlock := Minute * 5 / 2;
     RetargetAdjustmentFactor := 4;
     ReduceMinDifficulty := true;
     MinDiffReductionTime := Minute * 20;
     Bech32HRPSegwit := "tvtc";
     PubKeyHashAddrID := Byte.x4a;
     ScriptHashAddrID := Byte.xc4;
     HDPrivateKeyID := (Byte.x04, Byte.x35, Byte.x83, Byte.x94);
     HDPublicKeyID := (Byte.x04, Byte.x35, Byte.x87, Byte.xcf) |}.

(** The zero value [Params{}] of the record. *)
Definition zeroParams : Params :=
  {| Name := "";
     Net := 0;
     PowLimit := 0;
     PowLimitBits := 0;
     TargetTimespan := 0;
     TargetTimePerBlock := 0;
     RetargetAdjustmentFactor := 0;
     ReduceMinDifficulty := false;
     MinDiffReductionTime := 0;
     Bech32HRPSegwit := "";
     PubKeyHashAddrID := Byte.x00;
     ScriptHashAddrID := Byte.x00;
     HDPrivateKeyID := (Byte.x00, Byte.x00, Byte.x00, Byte.x00);
     HDPublicKeyID := (Byte.x00, Byte.x00, Byte.x00, Byte.x00) |}.

(** ** The registry *)

#[export] Instance byte_eq_decision : EqDecision Byte.byte := Byte.byte_eq_dec.

#[export] Instance byte_countable : Countable Byte.byte :=
  inj_countable Byte.to_N Byte.of_N Byte.of_to_N.

(** The package-level maps. A [map[K]struct{}] is a set of keys. *)
Record Registry : Type := mkRegistry {
  registeredNets : gset Z;
  pubKeyHashAddrIDs : gset Byte.byte;
  scriptHashAddrIDs : gset Byte.byte;
  bech32SegwitPrefixes : gset string;
  hdPrivToPubKeyIDs : gmap (Byte.byte * Byte.byte * Byte.byte * Byte.byte) (list Byte.byte)
}.

Definition emptyRegistry : Registry :=
  {| registeredNets := ∅;
     pubKeyHashAddrIDs := ∅;
     scriptHashAddrIDs := ∅;
     bech32SegwitPrefixes := ∅;
     hdPrivToPubKeyIDs := ∅ |}.

(** [a[:]] for a [[4]byte]. *)
Definition sliceOfArray4 (a : Byte.byte * Byte.byte * Byte.byte * Byte.byte)
  : list Byte.byte :=
  match a with
  | (b0, b1, b2, b3) => b0 :: b1 :: b2 :: b3 :: nil
  end.

(** [var key [4]byte; copy(key[:], src)]: positions past the end of [src]
    keep their zero value. *)
Definition copyToArray4 (src : list Byte.byte)
  : Byte.byte * Byte.byte * Byte.byte * Byte.byte :=
  (nth 0 src Byte.x00, nth 1 src Byte.x00, nth 2 src Byte.x00, nth 3 src Byte.x00).

Definition RegisterHDKeyID (reg : Registry) (hdPublicKeyID hdPrivateKeyID : list Byte.byte)
  : option error * Registry :=
  if negb (length hdPublicKeyID =? 4)%nat || negb (length hdPrivateKeyID =? 4)%nat
  then (Some ErrInvalidHDKeyID, reg)
  else
    let keyID := copyToArray4 hdPrivateKeyID in
    (None,
     {| registeredNets := registeredNets reg;
        pubKeyHashAddrIDs := pubKeyHashAddrIDs reg;
        scriptHashAddrIDs := scriptHashAddrIDs reg;
        bech32SegwitPrefixes := bech32SegwitPrefixes reg;
        hdPrivToPubKeyIDs := <[keyID := hdPublicKeyID]> (hdPrivToPubKeyIDs reg) |}).

Definition Register (reg : Registry) (params : Params) : option error * Registry :=
  if decide (Net params ∈ registeredNets reg)
  then (Some ErrDuplicateNet, reg)
  else
    let reg1 :=
      {| registeredNets := {[Net params]} ∪ registeredNets reg;
         pubKeyHashAddrIDs := {[PubKeyHashAddrID params]} ∪ pubKeyHashAddrIDs reg;
         scriptHashAddrIDs := {[ScriptHashAddrID params]} ∪ scriptHashAddrIDs reg;
         bech32SegwitPrefixes := bech32SegwitPrefixes reg;
         hdPrivToPubKeyIDs := hdPrivToPubKeyIDs reg |} in
    match RegisterHDKeyID reg1 (sliceOfArray4 (HDPublicKeyID params))
            (sliceOfArray4 (HDPrivateKeyID params)) with
    | (Some err, reg2) => (Some err, reg2)
    | (None, reg2) =>
        (None,
         {| registeredNets := registeredNets reg2;
            pubKeyHashAddrIDs := pubKeyHashAddrIDs reg2;
            scriptHashAddrIDs := scriptHashAddrIDs reg2;
            bech32SegwitPrefixes :=
              {[String.append (Bech32HRPSegwit params) "1"]} ∪ bech32SegwitPrefixes reg2;
            hdPrivToPubKeyIDs := hdPrivToPubKeyIDs reg2 |})
    end.

Definition IsPubKeyHashAddrID (reg : Registry) (id : Byte.byte) : bool :=
  bool_decide (id ∈ pubKeyHashAddrIDs reg).

Definition IsScriptHashAddrID (reg : Registry) (id : Byte.byte) : bool :=
  bool_decide (id ∈ scriptHashAddrIDs reg).

(** The result pair [([]byte, error)]; the nil slice is the empty list. *)
Definition HDPrivateKeyToPublicKeyID (reg : Registry) (id : list Byte.byte)
  : list Byte.byte * option error :=
  if negb (length id =? 4)%nat
  then (nil, Some ErrUnknownHDKeyID)
  else
    let key := copyToArray4 id in
    match hdPrivToPubKeyIDs reg !! key with
    | None => (nil, Some ErrUnknownHDKeyID)
    | Some pubBytes => (pubBytes, None)
    end.

(** Registering a list of networks in order, as [init] does for the default
    ones; the errors are dropped here. *)
Definition registerAll (reg : Registry) (ps : list Params) : Registry :=
  fold_left (fun acc p => snd (Register acc p)) ps reg.

(** ** Vocabulary of the properties *)

(** A header that serialization followed by parsing gives back unchanged. *)
Definition wfHeader (h : BlockHeader) : Prop :=
  - 2 ^ 31 <= Version h < 2 ^ 31
  /\ length (PrevBlock h) = 32%nat
  /\ length (MerkleRoot h) = 32%nat
  /\ (exists sec, 0 <= sec < 2 ^ 32 /\ Timestamp h = time_Unix sec 0)
  /\ 0 <= Bits h < 2 ^ 32
  /\ 0 <= Nonce h < 2 ^ 32.

(** The offsets a call sought to, in order. *)
Fixpoint soughtOffsets (t : list event) : list Z :=
  match t with
  | nil => nil
  | Sought offset _ :: t' => offset :: soughtOffsets t'
  | _ :: t' => soughtOffsets t'
  end.

(** No accessor operation in the trace failed. *)
Definition clean (t : list event) : Prop :=
  forall ev, In ev t -> failure ev = None.

(** The trace of a call is clean unless the call returned an error, and then
    the error is the one of the last operation, the only one that failed. *)
Definition abortsOnFailure {A R : Type} (x : outcome A * R * list event) : Prop :=
  match result x with
  | Fail e => exists t0 ev, trace x = t0 ++ ev :: nil /\ clean t0 /\ failure ev = Some e
  | _ => clean (trace x)
  end.

Definition disciplined {R A : Type} (m : M R A) : Prop :=
  forall r, abortsOnFailure (m r).

(** What a caller observes of error propagation: a failed operation is the
    last one performed and its error is returned with zero bits, and an
    error is returned only when an operation failed. *)
Definition propagatesFailure {R : Type} (x : outcome Z * R * list event) : Prop :=
  (forall t0 ev rest e,
      trace x = t0 ++ ev :: rest -> failure ev = Some e ->
      rest = nil /\ result x = Fail e /\ returned (result x) = Some (0, Some e))
  /\ (forall e, result x = Fail e ->
        exists t0 ev, trace x = t0 ++ ev :: nil /\ failure ev = Some e).

(** A pure computation hands no error to its caller. *)
Definition neverFails {A : Type} (o : outcome A) : Prop := forall e, o <> Fail e.

(** A compact value that decodes to a target between 0 and [lim]. *)
Definition withinLimit (lim bits : Z) : Prop :=
  0 <= difficulty.CompactToBig bits <= lim.

Definition withinLimitb (lim : Z) (ev : event) : bool :=
  match ev with
  | Deserialized h =>
      (0 <=? difficulty.CompactToBig (Bits h)) && (difficulty.CompactToBig (Bits h) <=? lim)
  | _ => true
  end.

(** Every header the call deserialized carries bits within the limit. *)
Definition headersWithin (lim : Z) (t : list event) : Prop :=
  forall h, In (Deserialized h) t -> withinLimit lim (Bits h).

(** [safe lim m post]: whenever [m] delivers a value after deserializing only
    headers within the limit, the value satisfies [post]. *)
Definition safe {R A : Type} (lim : Z) (m : M R A) (post : A -> Prop) : Prop :=
  forall r a r' t, m r = (Ret a, r', t) -> headersWithin lim t -> post a.

(** Durations are whole seconds that fit int64, the timespan is at least a
    second, the adjustment factor is positive and scaling the timespan by it
    stays in int64. *)
Definition saneParams (p : Params) : Prop :=
  Second <= TargetTimespan p < 2 ^ 63
  /\ Z.rem (TargetTimespan p) Second = 0
  /\ 0 <= TargetTimePerBlock p < 2 ^ 63
  /\ Z.rem (TargetTimePerBlock p) Second = 0
  /\ 0 < RetargetAdjustmentFactor p
  /\ Z.quot (TargetTimespan p) Second * RetargetAdjustmentFactor p < 2 ^ 63.

(** What the scan of the gravity well maintains from one iteration to the
    next, and what it hands to the final computation. *)
Definition scanInvariant (i : Z) (st : kgwState) : Prop :=
  1 <= i <= maxBlocks + 1
  /\ blocksScanned st = i - 1
  /\ 0 <= difficulty.CompactToBig (Bits (currentBlock st))
  /\ 0 <= previousDifficultyAverage st
  /\ 0 <= difficultyAverage st
  /\ 0 <= actualRate st
  /\ 0 <= targetRate st.

Definition scanResult (o : option kgwState) : Prop :=
  forall st, o = Some st ->
    0 <= difficultyAverage st /\ 0 <= actualRate st /\ 0 <= targetRate st.

(** ** Inputs of the worked examples *)

(** A float64 instance to run examples with: none of them has a duration
    with a fractional second, and the horizon test is answered [true]. *)
Definition exampleFloat64 : Float64Ops :=
  {| fractionalSeconds := fun d => Z.quot d Second;
     eventHorizon := fun _ _ _ => true |}.

(** One that answers the horizon test [false], so that the scan of the
    gravity well goes on for as long as it can. *)
Definition patientFloat64 : Float64Ops :=
  {| fractionalSeconds := fun d => Z.quot d Second;
     eventHorizon := fun _ _ _ => false |}.

(** 2017 regtest headers exactly ten minutes apart, all with bits
    [0x1d00ffff], and 4033 of them. *)
Definition exactSpacingStore : bytesReader :=
  storeOf (syntheticHeaders 2017 1296688602 600 0x1d00ffff).

Definition twoEpochStore : bytesReader :=
  storeOf (syntheticHeaders 4033 1296688602 600 0x1d00ffff).

(** Three regtest headers, the last one forty minutes after the second. *)
Definition slowBlockStore : bytesReader :=
  storeOf (syntheticHeader 1296688602 600 0x1d00ffff 0
           :: syntheticHeader 1296688602 600 0x1d00ffff 1
           :: syntheticHeader 1296688602 600 0x1d00ffff 4 :: nil).

(** 2401 testnet headers two and a half minutes apart with the bits of the
    testnet genesis block. *)
Definition testnetStore : bytesReader :=
  storeOf (syntheticHeaders 2401 1481291250 150 0x1e0ffff0).

(** Three testnet headers carrying the bits of the regtest limit, and 2017
    carrying the target 1. *)
Definition easyBitsStore : bytesReader :=
  storeOf (syntheticHeaders 3 1481291250 150 0x207fffff).

Definition unitTargetStore : bytesReader :=
  storeOf (syntheticHeaders 2017 1481291250 150 0x01010000).

(** 200 regtest headers of a store that starts at height 100. *)
Definition shortStore : bytesReader :=
  storeOf (syntheticHeaders 200 1296688602 600 0x1d00ffff).

(** * Properties *)

Import difficulty.

(** ** The compact codec *)

Lemma lor_disjoint_add (a m : Z) :
  0 <= a -> 0 <= m < 2 ^ 24 -> Z.lor (a * 2 ^ 24) m = a * 2 ^ 24 + m.
Proof.
  intros Ha Hm.
  assert (Hland : Z.land (a * 2 ^ 24) m = 0).
  { apply Z.bits_inj'. intros n Hn.
    rewrite Z.land_spec, Z.bits_0.
    destruct (Z.lt_ge_cases n 24) as [Hlt | Hge].
    - rewrite Z.mul_pow2_bits_low by lia. reflexivity.
    - replace (Z.testbit m n) with false; [apply andb_false_r |].
      symmetry. destruct (Z.eq_dec m 0) as [-> | Hne]; [apply Z.bits_0 |].
      apply Z.bits_above_log2; [lia |].
      apply Z.lt_le_trans with 24; [| lia].
      apply Z.log2_lt_pow2; lia. }
  rewrite <- Z.lxor_lor by exact Hland.
  symmetry. apply Z.add_nocarry_lxor. exact Hland.
Qed.

Lemma uint32_shiftl_24 (e : Z) : 0 <= e -> uint32 (Z.shiftl e 24) = (e mod 256) * 2 ^ 24.
Proof.
  intros He. unfold uint32. rewrite Z.shiftl_mul_pow2 by lia.
  change (2 ^ 32) with (2 ^ 8 * 2 ^ 24).
  rewrite Z.mul_mod_distr_r by lia. reflexivity.
Qed.

Lemma compactValue_nonneg (e m : Z) : 0 <= m -> 0 <= compactValue e m.
Proof.
  intros Hm. unfold compactValue.
  destruct (e <=? 3); [apply Z.shiftr_nonneg | apply Z.shiftl_nonneg]; exact Hm.
Qed.

Lemma CompactToBig_compactValue (c : Z) :
  CompactToBig c =
  let v := compactValue (Z.shiftr c 24) (Z.land c 0x007fffff) in
  if Z.land c 0x00800000 =? 0 then v else - v.
Proof.
  unfold CompactToBig, compactValue. cbv zeta.
  destruct (Z.land c 0x00800000 =? 0); reflexivity.
Qed.

(** A compact value with the sign flag set never decodes to a positive
    target, one with the flag clear never to a negative one. *)
Lemma CompactToBig_signed (c : Z) :
  Z.land c 0x00800000 <> 0 -> CompactToBig c <= 0.
Proof.
  intros Hs. rewrite CompactToBig_compactValue. cbv zeta.
  destruct (Z.eqb_spec (Z.land c 0x00800000) 0) as [E | _]; [contradiction |].
  assert (0 <= compactValue (Z.shiftr c 24) (Z.land c 0x007fffff)).
  { apply compactValue_nonneg. apply Z.land_nonneg. right. lia. }
  lia.
Qed.

Lemma CompactToBig_unsigned (c : Z) :
  Z.land c 0x00800000 = 0 -> 0 <= CompactToBig c.
Proof.
  intros Hs. rewrite CompactToBig_compactValue. cbv zeta. rewrite Hs. simpl.
  apply compactValue_nonneg. apply Z.land_nonneg. right. lia.
Qed.

(** Decoding an exponent and a 23-bit mantissa packed into a uint32. *)
Lemma CompactToBig_pack (e m : Z) :
  0 <= e -> 0 <= m < 2 ^ 23 ->
  CompactToBig (Z.lor (uint32 (Z.shiftl e 24)) m) = compactValue (e mod 256) m.
Proof.
  intros He Hm.
  assert (He' : 0 <= e mod 256 < 256) by (apply Z.mod_pos_bound; lia).
  rewrite uint32_shiftl_24 by exact He.
  rewrite lor_disjoint_add by lia.
  rewrite CompactToBig_compactValue. cbv zeta.
  change 0x007fffff with (Z.ones 23).
  rewrite Z.land_ones by lia.
  assert (Hlow : (e mod 256 * 2 ^ 24 + m) mod 2 ^ 23 = m).
  { change (2 ^ 24) with (2 * 2 ^ 23). rewrite Z.mul_assoc, Z.add_comm.
    rewrite Z.mod_add by lia. apply Z.mod_small. exact Hm. }
  assert (Hsign : Z.land (e mod 256 * 2 ^ 24 + m) 0x00800000 = 0).
  { apply Z.bits_inj'. intros n Hn. rewrite Z.land_spec, Z.bits_0.
    destruct (Z.eq_dec n 23) as [-> | Hne].
    - replace (Z.testbit (e mod 256 * 2 ^ 24 + m) 23) with false; [reflexivity |].
      symmetry. apply Z.testbit_false; [lia |].
      change (2 ^ 24) with (2 * 2 ^ 23). rewrite Z.mul_assoc.
      rewrite Z.div_add_l by lia. rewrite Z.div_small by lia.
      rewrite Z.add_0_r, Z.mod_mul by lia. reflexivity.
    - replace (Z.testbit 0x00800000 n) with false; [apply andb_false_r |].
      symmetry. change 0x00800000 with (2 ^ 23). apply Z.pow2_bits_false. lia. }
  rewrite Hsign, Hlow. simpl.
  rewrite Z.shiftr_div_pow2 by lia.
  rewrite Z.div_add_l by lia. rewrite Z.div_small by lia.
  rewrite Z.add_0_r. reflexivity.
Qed.

Lemma compactValue_mono (e1 e2 m : Z) :
  0 <= m -> 0 <= e1 <= e2 -> compactValue e1 m <= compactValue e2 m.
Proof.
  intros Hm He. unfold compactValue.
  destruct (Z.leb_spec e1 3) as [H1 | H1], (Z.leb_spec e2 3) as [H2 | H2]; try lia.
  - rewrite !Z.shiftr_div_pow2 by lia.
    replace (8 * (3 - e1)) with (8 * (3 - e2) + 8 * (e2 - e1)) by lia.
    rewrite Z.pow_add_r by lia.
    rewrite <- Z.div_div by lia.
    apply Z.div_le_upper_bound; [lia |].
    assert (0 <= m / 2 ^ (8 * (3 - e2))) by (apply Z.div_pos; lia).
    nia.
  - rewrite Z.shiftr_div_pow2, Z.shiftl_mul_pow2 by lia.
    assert (m / 2 ^ (8 * (3 - e1)) <= m).
    { apply Z.div_le_upper_bound; [lia |]. nia. }
    nia.
  - rewrite !Z.shiftl_mul_pow2 by lia.
    apply Z.mul_le_mono_nonneg_l; [exact Hm |].
    apply Z.pow_le_mono_r; lia.
Qed.

Lemma compactValue_normalise (e m : Z) :
  0 <= m -> 1 <= e -> compactValue (e + 1) (Z.shiftr m 8) <= compactValue e m.
Proof.
  intros Hm He. unfold compactValue.
  destruct (Z.leb_spec (e + 1) 3) as [H1 | H1], (Z.leb_spec e 3) as [H2 | H2]; try lia.
  - rewrite Z.shiftr_shiftr by lia.
    apply Z.eq_le_incl. f_equal. lia.
  - assert (e = 3) by lia. subst e.
    change (8 * (3 + 1 - 3)) with 8. change (8 * (3 - 3)) with 0.
    rewrite Z.shiftr_0_r.
    rewrite Z.shiftr_div_pow2, Z.shiftl_mul_pow2 by lia.
    pose proof (Z.mul_div_le m (2 ^ 8) ltac:(lia)). lia.
  - rewrite Z.shiftr_div_pow2, !Z.shiftl_mul_pow2 by lia.
    replace (8 * (e + 1 - 3)) with (8 + 8 * (e - 3)) by lia.
    rewrite Z.pow_add_r by lia.
    pose proof (Z.mul_div_le m (2 ^ 8) ltac:(lia)).
    assert (0 < 2 ^ (8 * (e - 3))) by (apply Z.pow_pos_nonneg; lia).
    nia.
Qed.

Lemma big_Bytes_len_spec (t : Z) :
  0 < t ->
  1 <= big_Bytes_len t /\ 2 ^ (8 * (big_Bytes_len t - 1)) <= t < 2 ^ (8 * big_Bytes_len t).
Proof.
  intros Ht. unfold big_Bytes_len.
  destruct (Z.eqb_spec t 0) as [-> | _]; [lia |].
  rewrite Z.abs_eq by lia.
  pose proof (Z.log2_spec t Ht) as [Hlo Hhi].
  pose proof (Z.log2_nonneg t) as Hl.
  pose proof (Z.div_mod (Z.log2 t) 8 ltac:(lia)) as Hdm.
  pose proof (Z.mod_pos_bound (Z.log2 t) 8 ltac:(lia)) as Hm.
  assert (0 <= Z.log2 t / 8) by (apply Z.div_pos; lia).
  split; [lia |]. split.
  - apply Z.le_trans with (2 ^ Z.log2 t); [| exact Hlo].
    apply Z.pow_le_mono_r; lia.
  - apply Z.lt_le_trans with (2 ^ Z.succ (Z.log2 t)); [exact Hhi |].
    apply Z.pow_le_mono_r; lia.
Qed.

Lemma bit23_clear_bound (m : Z) :
  0 <= m < 2 ^ 24 -> Z.land m 0x00800000 = 0 -> m < 2 ^ 23.
Proof.
  intros Hm Hland.
  assert (Hbit : Z.testbit m 23 = false).
  { assert (Hb : Z.testbit (Z.land m 0x00800000) 23 = false) by (rewrite Hland; apply Z.bits_0).
    rewrite Z.land_spec in Hb. change 0x00800000 with (2 ^ 23) in Hb.
    rewrite Z.pow2_bits_true in Hb by lia. rewrite andb_true_r in Hb. exact Hb. }
  apply Z.testbit_false in Hbit; [| lia].
  assert (m / 2 ^ 23 < 2) by (apply Z.div_lt_upper_bound; lia).
  assert (0 <= m / 2 ^ 23) by (apply Z.div_pos; lia).
  assert (Hq : m / 2 ^ 23 = 0).
  { destruct (Z.eq_dec (m / 2 ^ 23) 0) as [E | E]; [exact E |].
    assert (E1 : m / 2 ^ 23 = 1) by lia. rewrite E1 in Hbit. discriminate. }
  apply Z.div_small_iff in Hq; lia.
Qed.

(** The mantissa [BigToCompact] extracts before normalising. *)
Lemma mantissa_spec (t : Z) :
  0 < t ->
  let e := big_Bytes_len t in
  let m := if e <=? 3
           then uint32 (Z.shiftl (uint32 (Z.abs t)) (8 * (3 - e)))
           else uint32 (Z.shiftr (Z.abs t) (8 * (e - 3))) in
  0 <= m < 2 ^ 24 /\ compactValue e m <= t.
Proof.
  intros Ht e m.
  destruct (big_Bytes_len_spec t Ht) as (He & Hlo & Hhi). fold e in He, Hlo, Hhi.
  subst m. unfold compactValue, uint32. rewrite Z.abs_eq by lia.
  destruct (Z.leb_spec e 3) as [H3 | H3].
  - assert (Ht24 : t < 2 ^ 24).
    { apply Z.lt_le_trans with (2 ^ (8 * e)); [exact Hhi |]. apply Z.pow_le_mono_r; lia. }
    rewrite (Z.mod_small t) by lia.
    rewrite Z.shiftl_mul_pow2 by lia.
    assert (Hprod : 0 <= t * 2 ^ (8 * (3 - e)) < 2 ^ 24).
    { split; [apply Z.mul_nonneg_nonneg; lia |].
      replace 24 with (8 * e + 8 * (3 - e)) by lia.
      rewrite Z.pow_add_r by lia.
      apply Z.mul_lt_mono_pos_r; [apply Z.pow_pos_nonneg; lia | exact Hhi]. }
    rewrite (Z.mod_small (t * _)) by lia.
    split; [exact Hprod |].
    rewrite Z.shiftr_div_pow2 by lia.
    rewrite Z.div_mul by (apply Z.pow_nonzero; lia). lia.
  - rewrite Z.shiftr_div_pow2 by lia.
    assert (Hpos : 0 < 2 ^ (8 * (e - 3))) by (apply Z.pow_pos_nonneg; lia).
    assert (Hq : 0 <= t / 2 ^ (8 * (e - 3)) < 2 ^ 24).
    { split; [apply Z.div_pos; lia |].
      apply Z.div_lt_upper_bound; [exact Hpos |].
      rewrite <- Z.pow_add_r by lia.
      replace (8 * (e - 3) + 24) with (8 * e) by lia. exact Hhi. }
    rewrite (Z.mod_small (t / _)) by lia.
    split; [exact Hq |].
    rewrite Z.shiftl_mul_pow2 by lia.
    pose proof (Z.mul_div_le t (2 ^ (8 * (e - 3))) Hpos). lia.
Qed.

(** Re-encoding never raises a positive target: the codec keeps the three
    most significant bytes. *)
Lemma BigToCompact_decode_le (t : Z) :
  0 < t -> 0 <= CompactToBig (BigToCompact t) <= t.
Proof.
  intros Ht.
  destruct (big_Bytes_len_spec t Ht) as (He & _).
  destruct (mantissa_spec t Ht) as (Hm & Hv). cbv zeta in Hm, Hv.
  unfold BigToCompact.
  destruct (Z.eqb_spec t 0) as [-> | _]; [lia |].
  destruct (Z.ltb_spec t 0) as [Hneg | _]; [lia |].
  set (e := big_Bytes_len t) in *.
  set (m := if e <=? 3 then _ else _) in *.
  destruct (Z.eqb_spec (Z.land m 0x00800000) 0) as [Hclear | Hset]; cbn [fst snd].
  - pose proof (bit23_clear_bound m Hm Hclear) as Hm23.
    rewrite CompactToBig_pack by lia.
    assert (0 <= e mod 256 <= e).
    { split; [apply Z.mod_pos_bound; lia | apply Z.mod_le; lia]. }
    split; [apply compactValue_nonneg; lia |].
    apply Z.le_trans with (compactValue e m); [| exact Hv].
    apply compactValue_mono; lia.
  - assert (Hm8 : 0 <= Z.shiftr m 8 < 2 ^ 23).
    { rewrite Z.shiftr_div_pow2 by lia. split; [apply Z.div_pos; lia |].
      apply Z.div_lt_upper_bound; lia. }
    rewrite CompactToBig_pack by lia.
    assert (0 <= (e + 1) mod 256 <= e + 1).
    { split; [apply Z.mod_pos_bound; lia | apply Z.mod_le; lia]. }
    split; [apply compactValue_nonneg; lia |].
    apply Z.le_trans with (compactValue e m); [| exact Hv].
    apply Z.le_trans with (compactValue (e + 1) (Z.shiftr m 8)).
    + apply compactValue_mono; lia.
    + apply compactValue_normalise; lia.
Qed.

Lemma BigToCompact_negative (t : Z) :
  t < 0 -> CompactToBig (BigToCompact t) <= 0.
Proof.
  intros Ht. apply CompactToBig_signed.
  unfold BigToCompact.
  destruct (Z.eqb_spec t 0) as [-> | _]; [lia |].
  destruct (Z.ltb_spec t 0) as [_ | Hge]; [| lia].
  intros Hland.
  assert (Hb : Z.testbit (Z.land (Z.lor
     (Z.lor (uint32 (Z.shiftl (snd (if Z.land (if big_Bytes_len t <=? 3
            then uint32 (Z.shiftl (uint32 (Z.abs t)) (8 * (3 - big_Bytes_len t)))
            else uint32 (Z.shiftr (Z.abs t) (8 * (big_Bytes_len t - 3)))) 0x00800000 =? 0
        then _ else _)) 24)) _) 0x00800000) 0x00800000) 23 = false)
    by (rewrite Hland; apply Z.bits_0).
  rewrite Z.land_spec, Z.lor_spec in Hb.
  change 0x00800000 with (2 ^ 23) in Hb.
  rewrite Z.pow2_bits_true in Hb by lia.
  rewrite orb_true_r in Hb. discriminate.
Qed.

(** Whatever target is encoded, decoding the result does not exceed a
    non-negative bound on the target. *)
Lemma BigToCompact_bounded (t lim : Z) :
  0 <= lim -> t <= lim -> CompactToBig (BigToCompact t) <= lim.
Proof.
  intros Hlim Ht.
  destruct (Z.lt_trichotomy t 0) as [Hneg | [-> | Hpos]].
  - pose proof (BigToCompact_negative t Hneg). lia.
  - exact Hlim.
  - pose proof (BigToCompact_decode_le t Hpos). lia.
Qed.

(** ** Machine integers *)

Lemma int32_small (z : Z) : - 2 ^ 31 <= z < 2 ^ 31 -> int32 z = z.
Proof. intros Hz. unfold int32. rewrite Z.mod_small by lia. lia. Qed.

Lemma int32_range (z : Z) : - 2 ^ 31 <= int32 z < 2 ^ 31.
Proof. unfold int32. pose proof (Z.mod_pos_bound (z + 2 ^ 31) (2 ^ 32) ltac:(lia)). lia. Qed.

Lemma int64_small (z : Z) : - 2 ^ 63 <= z < 2 ^ 63 -> int64 z = z.
Proof. intros Hz. unfold int64. rewrite Z.mod_small by lia. lia. Qed.

Lemma int64_range (z : Z) : - 2 ^ 63 <= int64 z < 2 ^ 63.
Proof. unfold int64. pose proof (Z.mod_pos_bound (z + 2 ^ 63) (2 ^ 64) ltac:(lia)). lia. Qed.


(** ** [calcDiffAdjustBitcoin] *)

Lemma big_Div_returns (x y : Z) : y <> 0 -> exists q, big_Div x y = Ret q.
Proof.
  intros Hy. unfold big_Div.
  destruct (Z.eqb_spec y 0) as [E | _]; [contradiction |].
  destruct (0 <? y); eauto.
Qed.

Section Retarget.

Context `{Float64Ops}.

(** The shape of every value [calcDiffAdjustBitcoin] returns. *)
Lemma calcDiffAdjustBitcoin_returns (start end_ : BlockHeader) (p : Params) :
  RetargetAdjustmentFactor p <> 0 ->
  int64 (Z.quot (TargetTimespan p) Second) <> 0 ->
  exists newTarget,
    calcDiffAdjustBitcoin start end_ p
    = Ret (BigToCompact (Z.min newTarget (CompactToBig (PowLimitBits p)))).
Proof.
  intros Hf Ht. unfold calcDiffAdjustBitcoin, retargetDuration, go_div.
  destruct (Z.eqb_spec (RetargetAdjustmentFactor p) 0) as [E | _]; [contradiction |].
  cbn [obind].
  destruct (Z.eqb_spec Second 0) as [E | _]; [discriminate E |].
  cbn [obind].
  match goal with
  | |- context [big_Div ?x ?y] => destruct (big_Div_returns x y Ht) as [q Hq]; rewrite Hq
  end.
  cbn [obind]. exists q. do 2 f_equal.
  destruct (Z.ltb_spec (CompactToBig (PowLimitBits p)) q); lia.
Qed.

(** C5, as amended. For every pair of headers and every parameter record
    whose adjustment factor and whole-second timespan are not zero (the
    divisions would panic) and whose [PowLimitBits] decodes to a
    non-negative target, [calcDiffAdjustBitcoin] returns a compact value
    whose decoded target does not exceed the target [PowLimitBits] decodes
    to, whatever the timestamps of the two headers. The bound is the
    decoded [PowLimitBits]: the [PowLimit] field is not consulted. *)
Theorem calcDiffAdjustBitcoin_clamped (start end_ : BlockHeader) (p : Params) :
  RetargetAdjustmentFactor p <> 0 ->
  int64 (Z.quot (TargetTimespan p) Second) <> 0 ->
  0 <= CompactToBig (PowLimitBits p) ->
  exists bits,
    calcDiffAdjustBitcoin start end_ p = Ret bits
    /\ CompactToBig bits <= CompactToBig (PowLimitBits p).
Proof.
  intros Hf Ht Hlim.
  destruct (calcDiffAdjustBitcoin_returns start end_ p Hf Ht) as [q Hq].
  eexists. split; [exact Hq |].
  apply BigToCompact_bounded; lia.
Qed.

End Retarget.


(** ** Reading headers *)

Lemma epochLengthOf_int32 (p : Params) (n : Z) :
  epochLengthOf p = Ret n -> - 2 ^ 31 <= n < 2 ^ 31.
Proof.
  unfold epochLengthOf, go_div.
  destruct (TargetTimePerBlock p =? 0); cbn [obind]; [discriminate |].
  intros [= <-]. apply int32_range.
Qed.

Lemma go_rem_int32 (a n : Z) :
  n <> 0 -> - 2 ^ 31 <= n < 2 ^ 31 -> go_rem int32 a n = Ret (Z.rem a n).
Proof.
  intros Hn Hr. unfold go_rem.
  destruct (Z.eqb_spec n 0) as [E | _]; [contradiction |].
  f_equal. apply int32_small.
  pose proof (Z.rem_bound_abs a n Hn). lia.
Qed.

Section AccessorFacts.

Context `{Float64Ops} {R : Type} `{ReadSeeker R}.

Lemma result_mbind_Ret {A B : Type} (m : M R A) (k : A -> M R B)
    (r r1 : R) (a : A) (t1 : list event) :
  m r = (Ret a, r1, t1) -> result (mbind m k r) = result (k a r1).
Proof.
  intros Hm. unfold mbind, result. rewrite Hm.
  destruct (k a r1) as [[o r2] t2]. reflexivity.
Qed.

Lemma mbind_Ret {A B : Type} (m : M R A) (k : A -> M R B)
    (r r1 : R) (a : A) (t1 : list event) :
  m r = (Ret a, r1, t1) ->
  mbind m k r = (fst (fst (k a r1)), snd (fst (k a r1)), t1 ++ snd (k a r1)).
Proof.
  intros Hm. unfold mbind. rewrite Hm.
  destruct (k a r1) as [[o r2] t2]. reflexivity.
Qed.

Lemma result_read_then {B : Type} (offset : Z) (k : BlockHeader -> M R B)
    (r r1 : R) (h : BlockHeader) (t1 : list event) :
  readHeaderAt offset r = (Ret h, r1, t1) ->
  result ((_ <- Seek offset ;; x <- Deserialize ;; k x) r) = result (k h r1).
Proof.
  unfold readHeaderAt, mbind, result.
  destruct (Seek offset r) as [[[[] | e |] ra] ta]; try discriminate.
  destruct (Deserialize ra) as [[[x | e |] rb] tb]; try discriminate.
  intros [= -> -> <-].
  destruct (k h r1) as [[o r2] t2]. reflexivity.
Qed.

(** C7. On a height that is not an epoch boundary, with
    [ReduceMinDifficulty] set, when the three headers are read and the
    current header's timestamp is more than twice [TargetTimePerBlock] after
    the previous header's, [BTCDiff] and [LTCDiff] both return
    [PowLimitBits] instead of the epoch-start header's bits. *)
Theorem min_difficulty_relaxation
    (r r1 r2 r3 : R) (t1 t2 t3 : list event)
    (height startheight : Z) (p : Params) (n : Z)
    (prev cur epochStart : BlockHeader) :
  epochLengthOf p = Ret n ->
  n <> 0 ->
  Z.rem height n <> 0 ->
  ReduceMinDifficulty p = true ->
  - 2 ^ 62 <= TargetTimePerBlock p < 2 ^ 62 ->
  readHeaderAt (int32 (80 * int32 (int32 (height - startheight) - 1))) r
    = (Ret prev, r1, t1) ->
  readHeaderAt (int32 (80 * int32 (height - startheight))) r1 = (Ret cur, r2, t2) ->
  readHeaderAt (int32 (80 * int32 (int32 (height - startheight) - Z.rem height n))) r2
    = (Ret epochStart, r3, t3) ->
  Timestamp prev + 2 * TargetTimePerBlock p < Timestamp cur ->
  result (BTCDiff r height startheight p) = Ret (PowLimitBits p)
  /\ result (LTCDiff r height startheight p) = Ret (PowLimitBits p).
Proof.
  intros Hn Hn0 Hrem Hreduce Htpb Hprev Hcur Hstart Hlate.
  pose proof (epochLengthOf_int32 p n Hn) as Hrange.
  assert (Hbits : notNewEpoch cur prev epochStart p = PowLimitBits p).
  { unfold notNewEpoch, Time_After, Time_Add. rewrite Hreduce.
    rewrite int64_small by lia.
    destruct (Z.ltb_spec (Timestamp prev + TargetTimePerBlock p * 2) (Timestamp cur));
      [reflexivity | lia]. }
  assert (Hnz : (Z.rem height n =? 0) = false) by (apply Z.eqb_neq; exact Hrem).
  split.
  - unfold BTCDiff. rewrite Hn.
    rewrite (result_mbind_Ret _ _ r r n nil) by reflexivity.
    rewrite (result_read_then _ _ _ _ _ _ Hprev).
    rewrite (result_read_then _ _ _ _ _ _ Hcur).
    rewrite go_rem_int32 by assumption.
    rewrite (result_mbind_Ret _ _ r2 r2 (Z.rem height n) nil) by reflexivity.
    rewrite (result_read_then _ _ _ _ _ _ Hstart).
    rewrite Hnz, Hbits. reflexivity.
  - unfold LTCDiff. rewrite Hn.
    rewrite (result_mbind_Ret _ _ r r n nil) by reflexivity.
    rewrite (result_read_then _ _ _ _ _ _ Hprev).
    rewrite (result_read_then _ _ _ _ _ _ Hcur).
    rewrite go_rem_int32 by assumption.
    rewrite (result_mbind_Ret _ _ r2 r2 (Z.rem height n) nil) by reflexivity.
    rewrite (result_read_then _ _ _ _ _ _ Hstart).
    rewrite Hnz, Hbits. reflexivity.
Qed.

End AccessorFacts.

(** ** Error propagation *)

Lemma neverFails_obind {A B : Type} (o : outcome A) (k : A -> outcome B) :
  neverFails o -> (forall a, neverFails (k a)) -> neverFails (obind o k).
Proof.
  intros Ho Hk e. destruct o as [a | e' |]; cbn [obind].
  - apply Hk.
  - destruct (Ho e'). reflexivity.
  - discriminate.
Qed.

Lemma neverFails_Ret {A : Type} (a : A) : neverFails (Ret a).
Proof. intros e. discriminate. Qed.

Lemma neverFails_Panic {A : Type} : neverFails (@Panic A).
Proof. intros e. discriminate. Qed.

Lemma neverFails_go_div (w : Z -> Z) (a b : Z) : neverFails (go_div w a b).
Proof. unfold go_div. destruct (b =? 0); [apply neverFails_Panic | apply neverFails_Ret]. Qed.

Lemma neverFails_go_rem (w : Z -> Z) (a b : Z) : neverFails (go_rem w a b).
Proof. unfold go_rem. destruct (b =? 0); [apply neverFails_Panic | apply neverFails_Ret]. Qed.

Lemma neverFails_big_Div (x y : Z) : neverFails (big_Div x y).
Proof.
  unfold big_Div. destruct (y =? 0); [apply neverFails_Panic |].
  destruct (0 <? y); apply neverFails_Ret.
Qed.

Create HintDb purity.

#[local] Hint Resolve neverFails_Ret neverFails_Panic neverFails_go_div
  neverFails_go_rem neverFails_big_Div : purity.

Lemma neverFails_epochLengthOf (p : Params) : neverFails (epochLengthOf p).
Proof. unfold epochLengthOf. apply neverFails_obind; auto with purity. Qed.

Lemma neverFails_retargetDuration `{Float64Ops} (start end_ : BlockHeader) (p : Params) :
  neverFails (retargetDuration start end_ p).
Proof.
  unfold retargetDuration. apply neverFails_obind; [auto with purity | intros ?].
  apply neverFails_Ret.
Qed.

#[local] Hint Resolve neverFails_retargetDuration : purity.

Lemma neverFails_calcDiffAdjustBitcoin `{Float64Ops} (start end_ : BlockHeader) (p : Params) :
  neverFails (calcDiffAdjustBitcoin start end_ p).
Proof.
  unfold calcDiffAdjustBitcoin.
  repeat (apply neverFails_obind; [auto with purity | intros ?]).
  apply neverFails_Ret.
Qed.

Lemma neverFails_kgwAverage (i : Z) (cb : BlockHeader) (previous : Z) :
  neverFails (kgwAverage i cb previous).
Proof.
  unfold kgwAverage. destruct (i =? 1); [apply neverFails_Ret |].
  apply neverFails_obind; auto with purity.
Qed.

Lemma neverFails_kgwTarget (p : Params) (st : kgwState) : neverFails (kgwTarget p st).
Proof.
  unfold kgwTarget. apply neverFails_obind; [| auto with purity].
  destruct (negb (actualRate st =? 0) && negb (targetRate st =? 0)); auto with purity.
Qed.

#[local] Hint Resolve neverFails_epochLengthOf neverFails_calcDiffAdjustBitcoin
  neverFails_kgwAverage neverFails_kgwTarget : purity.

Lemma clean_nil : clean nil.
Proof. intros ev []. Qed.

Lemma clean_app (t1 t2 : list event) : clean t1 -> clean t2 -> clean (t1 ++ t2).
Proof. intros H1 H2 ev Hin. apply in_app_or in Hin as [Hin | Hin]; auto. Qed.

Section Propagation.

Context `{Float64Ops} {R : Type} `{ReadSeeker R}.

Lemma disciplined_mret {A : Type} (a : A) : disciplined (mret a : M R A).
Proof. intros r. exact clean_nil. Qed.

Lemma disciplined_lift {A : Type} (o : outcome A) :
  neverFails o -> disciplined (lift o : M R A).
Proof.
  intros Ho r. unfold abortsOnFailure, lift, result, trace. cbn [fst snd].
  destruct o as [a | e |]; [exact clean_nil | destruct (Ho e); reflexivity | exact clean_nil].
Qed.

Lemma disciplined_Seek (offset : Z) : disciplined (Seek offset).
Proof.
  intros r. unfold abortsOnFailure, Seek, result, trace.
  destruct (rs_Seek offset r) as [[e |] r']; cbn [fst snd].
  - exists nil, (Sought offset (Some e)). repeat split. exact clean_nil.
  - intros ev [<- | []]. reflexivity.
Qed.

Lemma disciplined_Deserialize : disciplined Deserialize.
Proof.
  intros r. unfold abortsOnFailure, Deserialize, result, trace.
  destruct (rs_ReadFull 80 r) as [[e | bs] r']; cbn [fst snd].
  - exists nil, (DeserializeFailed e). repeat split. exact clean_nil.
  - intros ev [<- | []]. reflexivity.
Qed.

Lemma disciplined_mbind {A B : Type} (m : M R A) (k : A -> M R B) :
  disciplined m -> (forall a, disciplined (k a)) -> disciplined (mbind m k).
Proof.
  intros Hm Hk r. specialize (Hm r).
  unfold abortsOnFailure, mbind, result, trace in *.
  destruct (m r) as [[[a | e |] r1] t1]; cbn [fst snd] in *; try exact Hm.
  specialize (Hk a r1). unfold abortsOnFailure, result, trace in Hk.
  destruct (k a r1) as [[[b | e |] r2] t2]; cbn [fst snd] in *.
  - apply clean_app; assumption.
  - destruct Hk as (t0 & ev & -> & Hc & Hf).
    exists (t1 ++ t0), ev. rewrite app_assoc.
    repeat split; [apply clean_app; assumption | exact Hf].
  - apply clean_app; assumption.
Qed.

Lemma disciplined_if {A : Type} (b : bool) (m1 m2 : M R A) :
  disciplined m1 -> disciplined m2 -> disciplined (if b then m1 else m2).
Proof. destruct b; auto. Qed.

Lemma abortsOnFailure_propagates (x : outcome Z * R * list event) :
  abortsOnFailure x -> propagatesFailure x.
Proof.
  unfold abortsOnFailure, propagatesFailure.
  destruct x as [[o r] t]. unfold result, trace. cbn [fst snd].
  intros Hx. split.
  - intros t0 ev rest e Ht Hf.
    assert (Hin : In ev t) by (rewrite Ht; apply in_elt).
    destruct o as [b | e' |].
    + rewrite (Hx ev Hin) in Hf. discriminate.
    + destruct Hx as (t0' & ev' & Ht' & Hc & Hf').
      destruct (exists_last (l := ev :: rest) ltac:(discriminate)) as (front & z & Hlast).
      assert (Heq : t0' ++ ev' :: nil = (t0 ++ front) ++ z :: nil).
      { rewrite <- app_assoc, <- Hlast, <- Ht. symmetry. exact Ht'. }
      apply app_inj_tail in Heq as [Hfront Hz]. subst z.
      destruct rest as [| y rest].
      * destruct front as [| f front]; cbn in Hlast.
        -- injection Hlast as ->. rewrite Hf in Hf'. injection Hf' as ->.
           repeat split.
        -- injection Hlast as _ Hl. destruct front; discriminate Hl.
      * assert (In ev t0').
        { rewrite Hfront. apply in_or_app. right.
          destruct front as [| f front]; cbn in Hlast.
          - discriminate Hlast.
          - injection Hlast as -> _. left. reflexivity. }
        rewrite (Hc ev) in Hf by assumption. discriminate.
    + rewrite (Hx ev Hin) in Hf. discriminate.
  - intros e ->. destruct Hx as (t0 & ev & Ht & _ & Hf). eauto.
Qed.

Lemma disciplined_BTCDiff (height startheight : Z) (p : Params) :
  disciplined (fun r => BTCDiff r height startheight p).
Proof.
  unfold BTCDiff.
  repeat first
    [ apply disciplined_mbind; [| intros ?]
    | apply disciplined_Seek
    | apply disciplined_Deserialize
    | apply disciplined_mret
    | apply disciplined_if
    | apply disciplined_lift; solve [auto with purity] ].
Qed.

Lemma disciplined_LTCDiff (height startheight : Z) (p : Params) :
  disciplined (fun r => LTCDiff r height startheight p).
Proof.
  unfold LTCDiff.
  repeat first
    [ apply disciplined_mbind; [| intros ?]
    | apply disciplined_Seek
    | apply disciplined_Deserialize
    | apply disciplined_mret
    | apply disciplined_if
    | apply disciplined_lift; solve [auto with purity] ].
Qed.

Lemma disciplined_kgwScan (fuel : nat) :
  forall startheight p lastSolved i st,
    disciplined (kgwScan fuel startheight p lastSolved i st).
Proof.
  induction fuel as [| fuel IH]; intros startheight p lastSolved i st; cbn [kgwScan].
  - apply disciplined_mret.
  - repeat first
      [ apply IH
      | apply disciplined_mbind; [| intros ?]
      | apply disciplined_Seek
      | apply disciplined_Deserialize
      | apply disciplined_mret
      | apply disciplined_if
      | apply disciplined_lift; solve [auto with purity] ].
Qed.

Lemma disciplined_calcDiffAdjustKGW (height startheight : Z) (p : Params) :
  disciplined (fun r => calcDiffAdjustKGW r height startheight p).
Proof.
  unfold calcDiffAdjustKGW.
  apply disciplined_if; [apply disciplined_mret |].
  apply disciplined_mbind; [apply disciplined_Seek | intros _].
  apply disciplined_mbind; [apply disciplined_Deserialize | intros cb].
  apply disciplined_mbind; [apply disciplined_kgwScan | intros [st |]].
  - apply disciplined_mbind; [apply disciplined_lift; auto with purity | intros ?].
    apply disciplined_mret.
  - apply disciplined_lift. auto with purity.
Qed.

Lemma disciplined_VTCTestDiff (height startheight : Z) (p : Params) :
  disciplined (fun r => VTCTestDiff r height startheight p).
Proof.
  intros r. unfold VTCTestDiff.
  destruct (height <? 2116); [apply disciplined_LTCDiff |].
  destruct (negb (Z.rem height 12 =? 0)); [| apply disciplined_calcDiffAdjustKGW].
  revert r. change (disciplined (_ <- Seek (int32 (80 * int32 (int32 (height - startheight) - 1))) ;;
                                 prev <- Deserialize ;; mret (Bits prev))).
  apply disciplined_mbind; [apply disciplined_Seek | intros _].
  apply disciplined_mbind; [apply disciplined_Deserialize | intros prev].
  apply disciplined_mret.
Qed.

(** C8. In each of [BTCDiff], [LTCDiff], [calcDiffAdjustKGW] and
    [VTCTestDiff], a seek or a deserialization that fails is the last
    accessor operation of the call, and the call returns exactly its error
    with zero bits; an error is returned only in that way. The scan of the
    gravity well therefore stops at its first failing read. *)
Theorem read_failure_aborts_call (r : R) (height startheight : Z) (p : Params) :
  propagatesFailure (BTCDiff r height startheight p)
  /\ propagatesFailure (LTCDiff r height startheight p)
  /\ propagatesFailure (calcDiffAdjustKGW r height startheight p)
  /\ propagatesFailure (VTCTestDiff r height startheight p).
Proof.
  split; [| split; [| split]]; apply abortsOnFailure_propagates.
  - apply disciplined_BTCDiff.
  - apply disciplined_LTCDiff.
  - apply disciplined_calcDiffAdjustKGW.
  - apply disciplined_VTCTestDiff.
Qed.

End Propagation.

(** ** The testnet dispatch and the scan *)

Section Dispatch.

Context `{Float64Ops} {R : Type} `{ReadSeeker R}.

Lemma read_then_return_bits (offset : Z) (r r1 : R) (prev : BlockHeader) (t1 : list event) :
  readHeaderAt offset r = (Ret prev, r1, t1) ->
  (_ <- Seek offset ;; h <- Deserialize ;; mret (Bits h)) r = (Ret (Bits prev), r1, t1).
Proof.
  unfold readHeaderAt, mbind, mret.
  destruct (Seek offset r) as [[[[] | e |] ra] ta]; try discriminate.
  destruct (Deserialize ra) as [[[x | e |] rb] tb]; try discriminate.
  intros [= -> -> <-]. rewrite app_nil_r. reflexivity.
Qed.

Lemma VTCTestDiff_early (r : R) (height startheight : Z) (p : Params) :
  height < 2116 ->
  VTCTestDiff r height startheight p = LTCDiff r height startheight p.
Proof.
  intros Hh. unfold VTCTestDiff.
  destruct (Z.ltb_spec height 2116); [reflexivity | lia].
Qed.

Lemma VTCTestDiff_unchanged (r r1 : R) (height startheight : Z) (p : Params)
    (prev : BlockHeader) (t1 : list event) :
  2116 <= height -> height mod 12 <> 0 ->
  readHeaderAt (int32 (80 * int32 (int32 (height - startheight) - 1))) r = (Ret prev, r1, t1) ->
  VTCTestDiff r height startheight p = (Ret (Bits prev), r1, t1).
Proof.
  intros Hh Hm Hread. unfold VTCTestDiff.
  destruct (Z.ltb_spec height 2116); [lia |].
  rewrite Z.rem_mod_nonneg by lia.
  destruct (Z.eqb_spec (height mod 12) 0) as [E | _]; [contradiction |].
  cbn [negb]. apply read_then_return_bits. exact Hread.
Qed.

Lemma VTCTestDiff_retarget (r : R) (height startheight : Z) (p : Params) :
  2116 <= height -> height mod 12 = 0 ->
  VTCTestDiff r height startheight p
  = calcDiffAdjustKGW r height startheight p.
Proof.
  intros Hh Hm. unfold VTCTestDiff.
  destruct (Z.ltb_spec height 2116); [lia |].
  rewrite Z.rem_mod_nonneg by lia. rewrite Hm. reflexivity.
Qed.

(** C6. [VTCTestDiff] is [LTCDiff] below height 2116; from 2116 on it
    returns the bits of the header just before [height], unchanged, when
    [height mod 12 <> 0], and is [calcDiffAdjustKGW] when
    [height mod 12 = 0]. Height 2115 goes to [LTCDiff], 2400 to
    [calcDiffAdjustKGW], and 2401 returns the preceding header's bits. *)
Theorem VTCTestDiff_dispatch (r : R) (height startheight : Z) (p : Params) :
  (height < 2116 ->
     VTCTestDiff r height startheight p = LTCDiff r height startheight p)
  /\ (2116 <= height -> height mod 12 <> 0 ->
      forall prev r1 t1,
        readHeaderAt (int32 (80 * int32 (int32 (height - startheight) - 1))) r
          = (Ret prev, r1, t1) ->
        VTCTestDiff r height startheight p = (Ret (Bits prev), r1, t1))
  /\ (2116 <= height -> height mod 12 = 0 ->
      VTCTestDiff r height startheight p
      = calcDiffAdjustKGW r height startheight p)
  /\ VTCTestDiff r 2115 startheight p = LTCDiff r 2115 startheight p
  /\ VTCTestDiff r 2400 startheight p
     = calcDiffAdjustKGW r 2400 startheight p
  /\ (forall prev r1 t1,
        readHeaderAt (int32 (80 * int32 (int32 (2401 - startheight) - 1))) r
          = (Ret prev, r1, t1) ->
        VTCTestDiff r 2401 startheight p = (Ret (Bits prev), r1, t1)).
Proof.
  split; [apply VTCTestDiff_early |].
  split; [intros Hh Hm prev r1 t1; apply VTCTestDiff_unchanged; assumption |].
  split; [apply VTCTestDiff_retarget |].
  split; [apply VTCTestDiff_early; lia |].
  split; [apply VTCTestDiff_retarget; [lia | reflexivity] |].
  intros prev r1 t1. apply VTCTestDiff_unchanged; [lia | discriminate].
Qed.

(** The scan leaves through its condition or a [break] before its fuel is
    used up: [i] counts the iterations and none starts with [i > maxBlocks]. *)
Lemma kgwScan_fuel (fuel : nat) :
  forall startheight p lastSolved i st r,
    1 <= i <= maxBlocks + 1 -> maxBlocks + 1 - i < Z.of_nat fuel ->
    result (kgwScan fuel startheight p lastSolved i st r) <> Ret None.
Proof.
  induction fuel as [| fuel IH]; intros startheight p lastSolved i st r Hi Hfuel.
  - exfalso. unfold maxBlocks in *. lia.
  - cbn [kgwScan].
    destruct (currentHeight st =? 1); [discriminate |].
    destruct (Z.ltb_spec maxBlocks i) as [Hbig | Hsmall]; [discriminate |].
    unfold mbind at 1, lift at 1.
    destruct (kgwAverage i (currentBlock st) (previousDifficultyAverage st))
      as [avg | e |]; [| discriminate | discriminate].
    match goal with
    | |- context [if ?c then _ else _] => destruct c
    end; [unfold result, mret; cbn; discriminate |].
    destruct (currentHeight st <? 1); [unfold result, mret; cbn; discriminate |].
    unfold mbind at 1.
    destruct (Seek _ r) as [[[[] | e |] ra] ta]; [| discriminate | discriminate].
    unfold mbind at 1.
    destruct (Deserialize ra) as [[[cb | e |] rb] tb]; [| discriminate | discriminate].
    match goal with
    | |- context [kgwScan fuel ?s ?q ?l ?j ?st' rb] =>
        pose proof (IH s q l j st' rb) as Hrec;
        destruct (kgwScan fuel s q l j st' rb) as [[o r2] t2]
    end.
    unfold result in *. cbn [fst snd] in *.
    intros Heq. apply Hrec; [| | exact Heq].
    + unfold maxBlocks in *. rewrite int32_small by lia. lia.
    + unfold maxBlocks in *. rewrite int32_small by lia. lia.
Qed.

End Dispatch.

(** ** Bounds on the returned bits *)

Lemma headersWithin_app (lim : Z) (t1 t2 : list event) :
  headersWithin lim (t1 ++ t2) -> headersWithin lim t1 /\ headersWithin lim t2.
Proof.
  intros Hw. split; intros h Hin; apply Hw; apply in_or_app; auto.
Qed.

Lemma clampDuration_nonneg (lo hi d : Z) : 0 <= lo -> 0 <= hi -> 0 <= clampDuration lo hi d.
Proof.
  intros Hlo Hhi. unfold clampDuration.
  destruct (Z.ltb_spec d lo); [exact Hlo |].
  destruct (Z.ltb_spec hi d); [exact Hhi | lia].
Qed.

Lemma quot_Second_bounds (d : Z) :
  0 <= d < 2 ^ 63 -> 0 <= Z.quot d Second < 2 ^ 63 /\ (Second <= d -> 0 < Z.quot d Second).
Proof.
  intros Hd. unfold Second. rewrite Z.quot_div_nonneg by lia.
  pose proof (Z.div_pos d 1000000000 ltac:(lia) ltac:(lia)).
  pose proof (Z.div_le_upper_bound d 1000000000 (2 ^ 63) ltac:(lia) ltac:(lia)).
  assert (d / 1000000000 <= d) by (apply Z.div_le_upper_bound; lia).
  split; [lia |]. intros Hs.
  apply Z.div_str_pos. lia.
Qed.

Lemma calcDiffAdjustBitcoin_withinLimit `{Float64Ops}
    (start end_ : BlockHeader) (p : Params) (lim bits : Z) :
  saneParams p ->
  withinLimit lim (PowLimitBits p) ->
  0 <= CompactToBig (Bits start) ->
  calcDiffAdjustBitcoin start end_ p = Ret bits ->
  withinLimit lim bits.
Proof.
  intros (Hts & Hwhole & Htpb & _ & Hf & Hmul) [Hl0 Hl1] Hstart.
  assert (HS : Second = 1000000000) by reflexivity.
  destruct (quot_Second_bounds (TargetTimespan p) ltac:(lia)) as [Hq Hqpos].
  specialize (Hqpos ltac:(lia)).
  unfold calcDiffAdjustBitcoin, retargetDuration, go_div, Duration_Seconds_int64.
  rewrite Hwhole, Z.eqb_refl.
  destruct (Z.eqb_spec (RetargetAdjustmentFactor p) 0) as [E | _]; [lia |].
  cbn [obind].
  destruct (Z.eqb_spec Second 0) as [E | _]; [discriminate E |].
  cbn [obind].
  rewrite (int64_small (Z.quot (TargetTimespan p) Second)) by lia.
  unfold big_Div.
  destruct (Z.eqb_spec (Z.quot (TargetTimespan p) Second) 0) as [E | _]; [lia |].
  destruct (Z.ltb_spec 0 (Z.quot (TargetTimespan p) Second)) as [_ | Hle]; [| lia].
  cbn [obind]. intros [= <-].
  set (d := clampDuration _ _ _).
  assert (Hd : 0 <= d).
  { apply clampDuration_nonneg.
    - assert (0 <= Z.quot (Z.quot (TargetTimespan p) Second) (RetargetAdjustmentFactor p)
              <= Z.quot (TargetTimespan p) Second).
      { rewrite Z.quot_div_nonneg by lia.
        split; [apply Z.div_pos; lia |].
        apply Z.div_le_upper_bound; [lia |]. nia. }
      rewrite int64_small by lia. lia.
    - assert (0 <= Z.quot (TargetTimespan p) Second * RetargetAdjustmentFactor p) by nia.
      rewrite int64_small by lia. lia. }
  set (q := CompactToBig (Bits start) * d / Z.quot (TargetTimespan p) Second).
  assert (Hq0 : 0 <= q).
  { apply Z.div_pos; [apply Z.mul_nonneg_nonneg; assumption | lia]. }
  set (L := CompactToBig (PowLimitBits p)) in *.
  assert (Hsel : 0 <= (if L <? q then L else q) <= L).
  { destruct (Z.ltb_spec L q); lia. }
  unfold withinLimit. split.
  - destruct (Z.eq_dec (if L <? q then L else q) 0) as [-> | Hne]; [reflexivity |].
    apply BigToCompact_decode_le. lia.
  - apply BigToCompact_bounded; lia.
Qed.

Lemma kgwAverage_nonneg (i : Z) (cb : BlockHeader) (previous avg : Z) :
  1 <= i < 2 ^ 31 -> 0 <= CompactToBig (Bits cb) -> 0 <= previous ->
  kgwAverage i cb previous = Ret avg -> 0 <= avg.
Proof.
  intros Hi Hcb Hprev. unfold kgwAverage.
  destruct (Z.eqb_spec i 1) as [_ | Hne]; [intros [= <-]; exact Hcb |].
  unfold big_Div. rewrite int64_small by lia.
  destruct (Z.eqb_spec i 0) as [E | _]; [lia |].
  destruct (Z.ltb_spec 0 i) as [_ | Hle]; [| lia].
  cbn [obind]. intros [= <-].
  assert (- previous <= (CompactToBig (Bits cb) - previous) / i).
  { apply Z.div_le_lower_bound; [lia |]. nia. }
  lia.
Qed.

Lemma kgwTarget_withinLimit (p : Params) (st : kgwState) (lim newTarget : Z) :
  0 <= PowLimit p <= lim ->
  0 <= difficultyAverage st -> 0 <= actualRate st -> 0 <= targetRate st ->
  kgwTarget p st = Ret newTarget ->
  withinLimit lim (BigToCompact newTarget).
Proof.
  intros Hpl Havg Hact Htgt. unfold kgwTarget.
  assert (Hinner : forall q,
    (if negb (actualRate st =? 0) && negb (targetRate st =? 0)
     then big_Div (difficultyAverage st * actualRate st) (targetRate st)
     else Ret (difficultyAverage st)) = Ret q -> 0 <= q).
  { intros q.
    destruct (Z.eqb_spec (actualRate st) 0) as [_ | Ha]; cbn [negb andb];
      [intros [= <-]; exact Havg |].
    destruct (Z.eqb_spec (targetRate st) 0) as [_ | Ht]; cbn [negb];
      [intros [= <-]; exact Havg |].
    unfold big_Div.
    destruct (Z.eqb_spec (targetRate st) 0) as [E | _]; [contradiction |].
    destruct (Z.ltb_spec 0 (targetRate st)) as [_ | Hle]; [| lia].
    intros [= <-]. apply Z.div_pos; [apply Z.mul_nonneg_nonneg; assumption | lia]. }
  destruct (if negb (actualRate st =? 0) && negb (targetRate st =? 0) then _ else _)
    as [q | e |]; cbn [obind]; try discriminate.
  specialize (Hinner q eq_refl).
  intros [= <-].
  assert (Hsel : 0 <= (if PowLimit p <? q then PowLimit p else q) <= PowLimit p).
  { destruct (Z.ltb_spec (PowLimit p) q); lia. }
  unfold withinLimit. split.
  - destruct (Z.eq_dec (if PowLimit p <? q then PowLimit p else q) 0) as [-> | Hne];
      [reflexivity |].
    apply BigToCompact_decode_le. lia.
  - apply BigToCompact_bounded; lia.
Qed.

Section Bounds.

Context `{Float64Ops} {R : Type} `{ReadSeeker R}.
Variable lim : Z.

Lemma safe_mret {A : Type} (a : A) (post : A -> Prop) :
  post a -> safe lim (mret a : M R A) post.
Proof. intros Hp r a' r' t [= <- _ _] _. exact Hp. Qed.

Lemma safe_lift {A : Type} (o : outcome A) (post : A -> Prop) :
  (forall a, o = Ret a -> post a) -> safe lim (lift o : M R A) post.
Proof. intros Hp r a r' t [= -> _ _] _. apply Hp. reflexivity. Qed.

Lemma safe_Seek (offset : Z) : safe lim (Seek offset) (fun _ => True).
Proof. intros r a r' t _ _. exact I. Qed.

Lemma safe_Deserialize : safe lim Deserialize (fun h => withinLimit lim (Bits h)).
Proof.
  intros r h r' t. unfold Deserialize.
  destruct (rs_ReadFull 80 r) as [[e | bs] r1]; [discriminate |].
  intros [= <- _ <-] Hw. apply Hw. left. reflexivity.
Qed.

Lemma safe_mbind {A B : Type} (m : M R A) (k : A -> M R B)
    (mid : A -> Prop) (post : B -> Prop) :
  safe lim m mid -> (forall a, mid a -> safe lim (k a) post) -> safe lim (mbind m k) post.
Proof.
  intros Hm Hk r b r' t. unfold mbind.
  destruct (m r) as [[[a | e |] r1] t1] eqn:Em; try discriminate.
  destruct (k a r1) as [[o r2] t2] eqn:Ek.
  intros [= -> <- <-] Hw. apply headersWithin_app in Hw as [Hw1 Hw2].
  exact (Hk a (Hm r a r1 t1 Em Hw1) r1 b r2 t2 Ek Hw2).
Qed.

Lemma safe_if {A : Type} (b : bool) (m1 m2 : M R A) (post : A -> Prop) :
  (b = true -> safe lim m1 post) -> (b = false -> safe lim m2 post) ->
  safe lim (if b then m1 else m2) post.
Proof. destruct b; auto. Qed.

Variable p : Params.
Hypothesis Hsane : saneParams p.
Hypothesis HlimBits : withinLimit lim (PowLimitBits p).
Hypothesis Hlim : 0 <= PowLimit p <= lim.

Lemma notNewEpoch_withinLimit (cur prev epochStart : BlockHeader) :
  withinLimit lim (Bits epochStart) ->
  withinLimit lim (notNewEpoch cur prev epochStart p).
Proof.
  intros Hes. unfold notNewEpoch.
  destruct (ReduceMinDifficulty p && _); assumption.
Qed.

Lemma safe_BTCDiff (height startheight : Z) :
  safe lim (fun r => BTCDiff r height startheight p) (withinLimit lim).
Proof.
  unfold BTCDiff.
  apply safe_mbind with (mid := fun _ => True); [apply safe_lift; auto | intros n _].
  apply safe_mbind with (mid := fun _ => True); [apply safe_Seek | intros _ _].
  eapply safe_mbind; [apply safe_Deserialize | intros prev Hprev].
  apply safe_mbind with (mid := fun _ => True); [apply safe_Seek | intros _ _].
  eapply safe_mbind; [apply safe_Deserialize | intros cur Hcur].
  apply safe_mbind with (mid := fun _ => True); [apply safe_lift; auto | intros m _].
  apply safe_mbind with (mid := fun _ => True); [apply safe_Seek | intros _ _].
  eapply safe_mbind; [apply safe_Deserialize | intros es Hes].
  apply safe_if; intros _.
  - apply safe_lift. intros bits Hbits.
    eapply calcDiffAdjustBitcoin_withinLimit; eauto. apply Hes.
  - apply safe_mret. apply notNewEpoch_withinLimit. exact Hes.
Qed.

Lemma safe_LTCDiff (height startheight : Z) :
  safe lim (fun r => LTCDiff r height startheight p) (withinLimit lim).
Proof.
  unfold LTCDiff.
  apply safe_mbind with (mid := fun _ => True); [apply safe_lift; auto | intros n _].
  apply safe_mbind with (mid := fun _ => True); [apply safe_Seek | intros _ _].
  eapply safe_mbind; [apply safe_Deserialize | intros prev Hprev].
  apply safe_mbind with (mid := fun _ => True); [apply safe_Seek | intros _ _].
  eapply safe_mbind; [apply safe_Deserialize | intros cur Hcur].
  apply safe_mbind with (mid := fun _ => True); [apply safe_lift; auto | intros m _].
  apply safe_mbind with (mid := fun _ => True); [apply safe_Seek | intros _ _].
  eapply safe_mbind; [apply safe_Deserialize | intros es Hes].
  apply safe_if; intros _.
  - apply safe_mbind with (mid := fun _ => True);
      [apply safe_if; intros _; apply safe_Seek | intros _ _].
    eapply safe_mbind; [apply safe_Deserialize | intros es' Hes'].
    apply safe_lift. intros bits Hbits.
    eapply calcDiffAdjustBitcoin_withinLimit; eauto. apply Hes'.
  - apply safe_mret. apply notNewEpoch_withinLimit. exact Hes.
Qed.

Lemma safe_kgwScan (fuel : nat) :
  forall startheight lastSolved i st,
    scanInvariant i st ->
    safe lim (kgwScan fuel startheight p lastSolved i st) scanResult.
Proof.
  induction fuel as [| fuel IH];
    intros startheight lastSolved i st (Hi & Hscanned & Hcb & Hprev & Havg & Hact & Htgt);
    cbn [kgwScan].
  - apply safe_mret. intros st' [=].
  - assert (Hdone : scanResult (Some st)).
    { intros st' [= <-]. auto. }
    apply safe_if; intros _; [apply safe_mret; exact Hdone |].
    apply safe_if; intros Hmax; [apply safe_mret; exact Hdone |].
    apply Z.ltb_ge in Hmax. unfold maxBlocks in *.
    eapply safe_mbind with (mid := fun avg => 0 <= avg).
    { apply safe_lift. intros avg Havg'.
      eapply kgwAverage_nonneg; [| exact Hcb | exact Hprev | exact Havg']. lia. }
    intros avg Havg0.
    destruct Hsane as (_ & _ & Htpb & Hwhole & _).
    destruct (quot_Second_bounds (TargetTimePerBlock p) Htpb) as [Hsec _].
    assert (Hsecs : Z.quot (TargetTimePerBlock p) Second <= 9223372036).
    { unfold Second. rewrite Z.quot_div_nonneg by lia.
      apply Z.lt_succ_r. apply Z.div_lt_upper_bound; lia. }
    set (scanned := int64 (blocksScanned st + 1)).
    assert (Hsc : scanned = i).
    { subst scanned. rewrite Hscanned. rewrite int64_small by lia. lia. }
    set (target := int64 (Duration_Seconds_int64 (TargetTimePerBlock p) * scanned)).
    assert (Htarget : 0 <= target).
    { subst target. unfold Duration_Seconds_int64. rewrite Hwhole, Z.eqb_refl, Hsc.
      assert (0 <= Z.quot (TargetTimePerBlock p) Second * i <= 9223372036 * 4032) by nia.
      rewrite int64_small by lia. lia. }
    set (actual0 := int64 _).
    set (actual := if actual0 <? 0 then 0 else actual0).
    assert (Hactual : 0 <= actual).
    { subst actual. destruct (Z.ltb_spec actual0 0); lia. }
    assert (Hbreak : scanResult (Some
      {| currentBlock := currentBlock st; currentHeight := currentHeight st;
         blocksScanned := scanned; actualRate := actual; targetRate := target;
         difficultyAverage := avg; previousDifficultyAverage := avg |})).
    { intros st' [= <-]. cbn. auto. }
    apply safe_if; intros _; [apply safe_mret; exact Hbreak |].
    apply safe_if; intros _; [apply safe_mret; exact Hbreak |].
    apply safe_mbind with (mid := fun _ => True); [apply safe_Seek | intros _ _].
    eapply safe_mbind; [apply safe_Deserialize | intros cb [Hcb0 _]].
    apply IH. unfold scanInvariant, maxBlocks. cbn.
    rewrite int32_small by lia. repeat split; try lia; assumption.
Qed.

Lemma safe_calcDiffAdjustKGW (height startheight : Z) :
  safe lim (fun r => calcDiffAdjustKGW r height startheight p) (withinLimit lim).
Proof.
  unfold calcDiffAdjustKGW.
  apply safe_if; intros _; [apply safe_mret; exact HlimBits |].
  apply safe_mbind with (mid := fun _ => True); [apply safe_Seek | intros _ _].
  eapply safe_mbind; [apply safe_Deserialize | intros cb [Hcb _]].
  eapply safe_mbind.
  { apply safe_kgwScan. unfold scanInvariant, maxBlocks. cbn. repeat split; lia. }
  intros [st |] Hst.
  - destruct (Hst st eq_refl) as (Havg & Hact & Htgt).
    apply safe_mbind with (mid := fun t => withinLimit lim (BigToCompact t)).
    + apply safe_lift. intros t Ht. eapply kgwTarget_withinLimit; eauto.
    + intros t Ht. apply safe_mret. exact Ht.
  - apply safe_lift. intros a [=].
Qed.

Lemma safe_VTCTestDiff (height startheight : Z) :
  safe lim (fun r => VTCTestDiff r height startheight p) (withinLimit lim).
Proof.
  intros r. unfold VTCTestDiff.
  destruct (height <? 2116); [apply safe_LTCDiff |].
  destruct (negb (Z.rem height 12 =? 0)); [| apply safe_calcDiffAdjustKGW].
  revert r.
  change (safe lim (_ <- Seek (int32 (80 * int32 (int32 (height - startheight) - 1))) ;;
                prev <- Deserialize ;; mret (Bits prev)) (withinLimit lim)).
  apply safe_mbind with (mid := fun _ => True); [apply safe_Seek | intros _ _].
  eapply safe_mbind; [apply safe_Deserialize | intros prev Hprev].
  apply safe_mret. exact Hprev.
Qed.

End Bounds.

(** ** Serialized headers *)

Lemma byte_of_Z_to_N (z : Z) : Z.of_N (Byte.to_N (byte_of_Z z)) = z mod 256.
Proof.
  unfold byte_of_Z.
  pose proof (Z.mod_pos_bound z 256 ltac:(lia)) as Hb.
  pose proof (Byte.to_of_N_option_map (Z.to_N (z mod 256))) as Hopt.
  destruct (N.leb_spec (Z.to_N (z mod 256)) 255) as [_ | Hgt]; [| lia].
  destruct (Byte.of_N (Z.to_N (z mod 256))) as [b |]; [| discriminate Hopt].
  cbn in Hopt. injection Hopt as ->. lia.
Qed.

Lemma le_combine_le_split (n : nat) (z : Z) :
  le_combine (le_split n z) = z mod 2 ^ (8 * Z.of_nat n).
Proof.
  revert z. induction n as [| n IH]; intros z; cbn [le_split le_combine].
  - change (2 ^ (8 * Z.of_nat 0)) with 1. rewrite Z.mod_1_r. reflexivity.
  - rewrite byte_of_Z_to_N, IH.
    replace (8 * Z.of_nat (S n)) with (8 + 8 * Z.of_nat n) by lia.
    rewrite Z.pow_add_r by lia. change (2 ^ 8) with 256.
    rewrite Z.rem_mul_r by lia. reflexivity.
Qed.

Lemma length_le_split (n : nat) (z : Z) : length (le_split n z) = n.
Proof. revert z. induction n as [| n IH]; intros z; cbn; [reflexivity | rewrite IH; reflexivity]. Qed.

Lemma slice_fields (a b c d e f : list Byte.byte) :
  length a = 4%nat -> length b = 32%nat -> length c = 32%nat ->
  length d = 4%nat -> length e = 4%nat -> length f = 4%nat ->
  let bs := a ++ b ++ c ++ d ++ e ++ f in
  slice 0 4 bs = a /\ slice 4 32 bs = b /\ slice 36 32 bs = c
  /\ slice 68 4 bs = d /\ slice 72 4 bs = e /\ slice 76 4 bs = f.
Proof.
  intros Ha Hb Hc Hd He Hf bs. subst bs. unfold slice.
  repeat split.
  - cbn [skipn]. apply take_app_length'. symmetry. exact Ha.
  - rewrite drop_app_length' by (symmetry; exact Ha).
    apply take_app_length'. symmetry. exact Hb.
  - change 36%nat with (4 + 32)%nat.
    rewrite drop_app_add' by (symmetry; exact Ha).
    rewrite drop_app_length' by (symmetry; exact Hb).
    apply take_app_length'. symmetry. exact Hc.
  - change 68%nat with (4 + (32 + 32))%nat.
    rewrite drop_app_add' by (symmetry; exact Ha).
    rewrite drop_app_add' by (symmetry; exact Hb).
    rewrite drop_app_length' by (symmetry; exact Hc).
    apply take_app_length'. symmetry. exact Hd.
  - change 72%nat with (4 + (32 + (32 + 4)))%nat.
    rewrite drop_app_add' by (symmetry; exact Ha).
    rewrite drop_app_add' by (symmetry; exact Hb).
    rewrite drop_app_add' by (symmetry; exact Hc).
    rewrite drop_app_length' by (symmetry; exact Hd).
    apply take_app_length'. symmetry. exact He.
  - change 76%nat with (4 + (32 + (32 + (4 + 4))))%nat.
    rewrite drop_app_add' by (symmetry; exact Ha).
    rewrite drop_app_add' by (symmetry; exact Hb).
    rewrite drop_app_add' by (symmetry; exact Hc).
    rewrite drop_app_add' by (symmetry; exact Hd).
    rewrite drop_app_length' by (symmetry; exact He).
    apply take_ge. rewrite Hf. lia.
Qed.

Lemma pad32 (l : list Byte.byte) :
  length l = 32%nat -> firstn 32 (l ++ repeat Byte.x00 32) = l.
Proof. intros <-. apply take_app_length. Qed.

Lemma length_serializeHeader (h : BlockHeader) : length (serializeHeader h) = 80%nat.
Proof.
  unfold serializeHeader. rewrite !length_app, !length_le_split, !length_take, !length_app, !repeat_length.
  lia.
Qed.

Lemma parse_serialize (h : BlockHeader) : wfHeader h -> parseHeader (serializeHeader h) = h.
Proof.
  intros (Hv & Hprev & Hmerkle & (sec & Hsec & Hts) & Hbits & Hnonce).
  unfold serializeHeader. rewrite (pad32 _ Hprev), (pad32 _ Hmerkle).
  destruct (slice_fields (le_split 4 (Version h mod 2 ^ 32)) (PrevBlock h) (MerkleRoot h)
              (le_split 4 (Time_Unix (Timestamp h))) (le_split 4 (Bits h))
              (le_split 4 (Nonce h)))
    as (S1 & S2 & S3 & S4 & S5 & S6); try apply length_le_split; try assumption.
  unfold parseHeader. rewrite S1, S2, S3, S4, S5, S6.
  rewrite !le_combine_le_split. change (2 ^ (8 * Z.of_nat 4)) with (2 ^ 32).
  assert (HtU : Time_Unix (Timestamp h) = sec).
  { rewrite Hts. unfold Time_Unix, time_Unix. rewrite Z.add_0_r. apply Z.div_mul. lia. }
  rewrite HtU.
  rewrite (Z.mod_small sec), (Z.mod_small (Bits h)), (Z.mod_small (Nonce h)) by lia.
  assert (HV : int32 (Version h mod 2 ^ 32 mod 2 ^ 32) = Version h).
  { rewrite Z.mod_mod by lia. unfold int32.
    rewrite Z.add_mod_idemp_l by lia.
    rewrite Z.mod_small by lia. lia. }
  rewrite HV, <- Hts. destruct h; reflexivity.
Qed.

(** ** Header stores *)

Lemma drop_flat_map_serialize (hs : list BlockHeader) (k : nat) :
  skipn (80 * k) (flat_map serializeHeader hs) = flat_map serializeHeader (skipn k hs).
Proof.
  revert hs. induction k as [| k IH]; intros hs.
  - reflexivity.
  - destruct hs as [| h hs].
    + rewrite !drop_nil. reflexivity.
    + cbn [flat_map skipn].
      replace (80 * S k)%nat with (80 + 80 * k)%nat by lia.
      rewrite drop_app_add' by (symmetry; apply length_serializeHeader).
      apply IH.
Qed.

(** Seeking to [80 * k] and deserializing gives the [k]-th header of the
    store, from whatever position. *)
Lemma read_store (hs : list BlockHeader) (k : nat) (h : BlockHeader) (pos : Z) :
  nth_error hs k = Some h ->
  wfHeader h ->
  readHeaderAt (80 * Z.of_nat k)
    {| br_data := flat_map serializeHeader hs; br_pos := pos |}
  = (Ret h,
     {| br_data := flat_map serializeHeader hs; br_pos := 80 * Z.of_nat k + 80 |},
     Sought (80 * Z.of_nat k) None :: Deserialized h :: nil).
Proof.
  intros Hk Hwf.
  unfold readHeaderAt, mbind, Seek, Deserialize. cbn [rs_Seek rs_ReadFull bytesReader_ReadSeeker].
  unfold bytes_Seek.
  destruct (Z.ltb_spec (80 * Z.of_nat k) 0) as [Hneg | _]; [lia |].
  unfold bytes_ReadFull. cbn [br_pos br_data].
  replace (Z.to_nat (80 * Z.of_nat k)) with (80 * k)%nat by lia.
  rewrite drop_flat_map_serialize.
  apply nth_error_split in Hk as (front & back & -> & <-).
  rewrite drop_app_length. cbn [flat_map].
  rewrite length_app, length_serializeHeader.
  destruct (Nat.eqb_spec (80 + length (flat_map serializeHeader back)) 0) as [E | _]; [lia |].
  destruct (Nat.ltb_spec (80 + length (flat_map serializeHeader back)) 80) as [Hlt | _]; [lia |].
  rewrite take_app_length' by (symmetry; apply length_serializeHeader).
  rewrite parse_serialize by exact Hwf.
  replace (Z.of_nat 80) with 80 by reflexivity. reflexivity.
Qed.

Lemma wfHeader_synthetic (t0 spacing bits : Z) (k : nat) :
  0 <= t0 + Z.of_nat k * spacing < 2 ^ 32 -> 0 <= bits < 2 ^ 32 ->
  wfHeader (syntheticHeader t0 spacing bits k).
Proof.
  intros Ht Hb. unfold wfHeader, syntheticHeader. cbn.
  repeat split; try lia.
  exists (t0 + Z.of_nat k * spacing). split; [lia | reflexivity].
Qed.

Lemma nth_error_synthetic (n : nat) (t0 spacing bits : Z) (k : nat) :
  (k < n)%nat ->
  nth_error (syntheticHeaders n t0 spacing bits) k = Some (syntheticHeader t0 spacing bits k).
Proof.
  intros Hk. unfold syntheticHeaders.
  rewrite nth_error_map, nth_error_seq.
  destruct (Nat.ltb_spec k n); [reflexivity | lia].
Qed.

Lemma int32_idem (z : Z) : int32 (int32 z) = int32 z.
Proof. apply int32_small. apply int32_range. Qed.

Section Boundary.

Context `{Float64Ops} {R : Type} `{ReadSeeker R}.

(** On an epoch boundary [BTCDiff] reads its epoch-start header at the
    offset of the current header, [height % epochLength] being 0. *)
Lemma BTCDiff_boundary (r r1 r2 r3 : R) (t1 t2 t3 : list event)
    (height startheight : Z) (p : Params) (n : Z) (prev cur epochStart : BlockHeader) :
  epochLengthOf p = Ret n ->
  n <> 0 ->
  Z.rem height n = 0 ->
  readHeaderAt (int32 (80 * int32 (int32 (height - startheight) - 1))) r
    = (Ret prev, r1, t1) ->
  readHeaderAt (int32 (80 * int32 (height - startheight))) r1 = (Ret cur, r2, t2) ->
  readHeaderAt (int32 (80 * int32 (height - startheight))) r2 = (Ret epochStart, r3, t3) ->
  result (BTCDiff r height startheight p) = calcDiffAdjustBitcoin epochStart prev p.
Proof.
  intros Hn Hn0 Hrem Hprev Hcur Hstart.
  pose proof (epochLengthOf_int32 p n Hn) as Hrange.
  unfold BTCDiff. rewrite Hn.
  rewrite (result_mbind_Ret _ _ r r n nil) by reflexivity.
  rewrite (result_read_then _ _ _ _ _ _ Hprev).
  rewrite (result_read_then _ _ _ _ _ _ Hcur).
  rewrite go_rem_int32 by assumption.
  rewrite (result_mbind_Ret _ _ r2 r2 (Z.rem height n) nil) by reflexivity.
  rewrite Hrem, Z.sub_0_r, int32_idem.
  rewrite (result_read_then _ _ _ _ _ _ Hstart).
  reflexivity.
Qed.

End Boundary.

(** When the clamped duration is the target timespan, the new target is the
    previous one. *)
Lemma calcDiffAdjustBitcoin_same_bits `{Float64Ops}
    (start end_ : BlockHeader) (p : Params) :
  int64 (Z.quot (TargetTimespan p) Second) <> 0 ->
  retargetDuration start end_ p = Ret (int64 (Z.quot (TargetTimespan p) Second)) ->
  BigToCompact (CompactToBig (Bits start)) = Bits start ->
  CompactToBig (Bits start) <= CompactToBig (PowLimitBits p) ->
  calcDiffAdjustBitcoin start end_ p = Ret (Bits start).
Proof.
  intros HT Hd Hcanon Hlim.
  unfold calcDiffAdjustBitcoin. rewrite Hd. cbn [obind].
  unfold go_div. destruct (Z.eqb_spec Second 0) as [E | _]; [discriminate E |].
  cbn [obind].
  set (T := int64 (Z.quot (TargetTimespan p) Second)) in *.
  set (prevTarget := CompactToBig (Bits start)) in *.
  assert (Hdiv : big_Div (prevTarget * T) T = Ret prevTarget).
  { unfold big_Div. destruct (Z.eqb_spec T 0) as [E | _]; [contradiction |].
    destruct (Z.ltb_spec 0 T) as [Hpos | Hneg].
    - rewrite Z.div_mul by lia. reflexivity.
    - replace (prevTarget * T) with (- prevTarget * - T) by lia.
      rewrite Z.div_mul by lia. f_equal. lia. }
  rewrite Hdiv. cbn [obind].
  destruct (Z.ltb_spec (CompactToBig (PowLimitBits p)) prevTarget) as [Hgt | _]; [lia |].
  rewrite Hcanon. reflexivity.
Qed.

(** C1, as amended. Over a store of [n + 1] headers evenly spaced from
    [t0] that all carry [bits], [n] being the epoch length, [BTCDiff] with
    start height 0 at height [n] returns what [calcDiffAdjustBitcoin]
    computes from an epoch-start header of the store and header [n - 1].
    That value is [bits] when the clamped duration equals the target
    timespan in seconds and [bits] is a compact value the codec reproduces
    that lies within the limit; it is not [bits] in general. *)
Theorem BTCDiff_first_boundary `{Float64Ops} (p : Params) (n t0 spacing bits : Z) :
  epochLengthOf p = Ret n ->
  1 <= n < 2 ^ 24 ->
  RetargetAdjustmentFactor p <> 0 ->
  int64 (Z.quot (TargetTimespan p) Second) <> 0 ->
  0 <= bits < 2 ^ 32 ->
  0 <= t0 -> 0 <= spacing -> t0 + n * spacing < 2 ^ 32 ->
  let hs := syntheticHeaders (Z.to_nat n + 1) t0 spacing bits in
  let prev := syntheticHeader t0 spacing bits (Z.to_nat n - 1) in
  exists start newBits,
    In start hs
    /\ result (BTCDiff (storeOf hs) n 0 p) = Ret newBits
    /\ calcDiffAdjustBitcoin start prev p = Ret newBits
    /\ (retargetDuration start prev p = Ret (int64 (Z.quot (TargetTimespan p) Second)) ->
        BigToCompact (CompactToBig bits) = bits ->
        CompactToBig bits <= CompactToBig (PowLimitBits p) ->
        newBits = bits).
Proof.
  intros Hn Hrange Hf HT Hbits Ht0 Hsp Hlast hs prev.
  set (start := syntheticHeader t0 spacing bits (Z.to_nat n)).
  assert (Hwf : forall k, (k <= Z.to_nat n)%nat -> wfHeader (syntheticHeader t0 spacing bits k)).
  { intros k Hk. apply wfHeader_synthetic; [| exact Hbits]. nia. }
  assert (Hnth : forall k, (k <= Z.to_nat n)%nat ->
            nth_error hs k = Some (syntheticHeader t0 spacing bits k)).
  { intros k Hk. apply nth_error_synthetic. lia. }
  destruct (calcDiffAdjustBitcoin_returns start prev p Hf HT) as [q Hq].
  exists start, (BigToCompact (Z.min q (CompactToBig (PowLimitBits p)))).
  split; [eapply nth_error_In; apply (Hnth (Z.to_nat n)); lia |].
  split; [| split; [exact Hq |]].
  - rewrite <- Hq. unfold storeOf.
    assert (Ho1 : int32 (80 * int32 (int32 (n - 0) - 1)) = 80 * Z.of_nat (Z.to_nat n - 1)).
    { rewrite Z.sub_0_r. rewrite (int32_small n) by lia.
      rewrite (int32_small (n - 1)) by lia. rewrite int32_small by lia. lia. }
    assert (Ho2 : int32 (80 * int32 (n - 0)) = 80 * Z.of_nat (Z.to_nat n)).
    { rewrite Z.sub_0_r. rewrite (int32_small n) by lia. rewrite int32_small by lia. lia. }
    eapply (BTCDiff_boundary _ _ _ _ _ _ _ n 0 p n prev start start Hn).
    + lia.
    + apply Z.rem_same. lia.
    + rewrite Ho1. apply read_store; [apply Hnth | apply Hwf]; lia.
    + rewrite Ho2. apply read_store; [apply Hnth | apply Hwf]; lia.
    + rewrite Ho2. apply read_store; [apply Hnth | apply Hwf]; lia.
  - intros Hd Hcanon Hlim.
    pose proof (calcDiffAdjustBitcoin_same_bits start prev p HT Hd Hcanon Hlim) as Hsame.
    rewrite Hq in Hsame. cbn [Bits start syntheticHeader] in Hsame.
    injection Hsame as Hsame. exact Hsame.
Qed.

(** ** Limits *)

Lemma headersWithin_check (lim : Z) (t : list event) :
  forallb (withinLimitb lim) t = true -> headersWithin lim t.
Proof.
  intros Hall h Hin. rewrite forallb_forall in Hall.
  specialize (Hall _ Hin). cbn in Hall.
  apply andb_true_iff in Hall as [H0 H1]. unfold withinLimit. lia.
Qed.

(** C4, as amended. Let [lim] bound both the target [PowLimitBits] decodes
    to and [PowLimit], both non-negative, for sane parameters. When a call
    of [BTCDiff], [LTCDiff], [calcDiffAdjustKGW] or [VTCTestDiff] succeeds
    and every header it deserialized carries bits that decode to a target
    between 0 and [lim], the returned bits decode to a target between 0 and
    [lim]. The target can be 0, and bits copied from a header are returned
    as they are. *)
Theorem retarget_result_within_limit `{Float64Ops} {R : Type} `{ReadSeeker R}
    (r : R) (height startheight : Z)
    (p : Params) (lim : Z) (x : outcome Z * R * list event) (bits : Z) :
  saneParams p ->
  withinLimit lim (PowLimitBits p) ->
  0 <= PowLimit p <= lim ->
  In x (BTCDiff r height startheight p
        :: LTCDiff r height startheight p
        :: calcDiffAdjustKGW r height startheight p
        :: VTCTestDiff r height startheight p :: nil) ->
  result x = Ret bits ->
  headersWithin lim (trace x) ->
  withinLimit lim bits.
Proof.
  intros Hsane HlimBits Hlim Hx Hres Hheaders.
  destruct x as [[o r'] t]. unfold result, trace in *. cbn [fst snd] in *. subst o.
  destruct Hx as [Hx | [Hx | [Hx | [Hx | []]]]].
  - exact (safe_BTCDiff lim p Hsane HlimBits height startheight r bits r' t Hx Hheaders).
  - exact (safe_LTCDiff lim p Hsane HlimBits height startheight r bits r' t Hx Hheaders).
  - exact (safe_calcDiffAdjustKGW lim p Hsane HlimBits Hlim height startheight
             r bits r' t Hx Hheaders).
  - exact (safe_VTCTestDiff lim p Hsane HlimBits Hlim height startheight
             r bits r' t Hx Hheaders).
Qed.

(** ** The registry *)

Lemma RegisterHDKeyID_array4 (reg : Registry) (pub priv : Byte.byte * Byte.byte * Byte.byte * Byte.byte) :
  fst (RegisterHDKeyID reg (sliceOfArray4 pub) (sliceOfArray4 priv)) = None
  /\ registeredNets (snd (RegisterHDKeyID reg (sliceOfArray4 pub) (sliceOfArray4 priv)))
     = registeredNets reg.
Proof.
  destruct pub as [[[a0 a1] a2] a3], priv as [[[b0 b1] b2] b3].
  split; reflexivity.
Qed.

Lemma Register_fresh (reg : Registry) (params : Params) :
  Net params ∉ registeredNets reg ->
  fst (Register reg params) = None
  /\ registeredNets (snd (Register reg params)) = {[Net params]} ∪ registeredNets reg.
Proof.
  intros Hfresh. unfold Register.
  destruct (decide (Net params ∈ registeredNets reg)) as [Hin | _]; [contradiction |].
  destruct (HDPublicKeyID params) as [[[a0 a1] a2] a3], (HDPrivateKeyID params) as [[[b0 b1] b2] b3].
  split; reflexivity.
Qed.

Lemma Register_duplicate (reg : Registry) (params : Params) :
  Net params ∈ registeredNets reg ->
  Register reg params = (Some ErrDuplicateNet, reg).
Proof.
  intros Hin. unfold Register.
  destruct (decide (Net params ∈ registeredNets reg)) as [_ | Hout]; [reflexivity | contradiction].
Qed.

Lemma Register_keeps_nets (reg : Registry) (params : Params) :
  registeredNets reg ⊆ registeredNets (snd (Register reg params)).
Proof.
  destruct (decide (Net params ∈ registeredNets reg)) as [Hin | Hout].
  - rewrite Register_duplicate by exact Hin. reflexivity.
  - destruct (Register_fresh reg params Hout) as [_ ->]. set_solver.
Qed.

Lemma registerAll_keeps_nets (ps : list Params) (reg : Registry) :
  registeredNets reg ⊆ registeredNets (registerAll reg ps).
Proof.
  revert reg. induction ps as [| q ps IH]; intros reg; [reflexivity |].
  cbn [registerAll fold_left]. etransitivity; [apply (Register_keeps_nets reg q) |].
  apply IH.
Qed.

(** C9. [Register] returns an error exactly when the network is already
    registered; the error is then [ErrDuplicateNet] and the registry is left
    as it was, and no other error is returned. After a successful
    registration, registering the same network again, at any later point,
    is rejected. *)
Theorem Register_error_iff_duplicate (reg : Registry) (params : Params) :
  (fst (Register reg params) <> None <-> Net params ∈ registeredNets reg)
  /\ (forall err, fst (Register reg params) = Some err ->
        err = ErrDuplicateNet /\ snd (Register reg params) = reg)
  /\ (fst (Register reg params) = None ->
        forall (later : list Params) (again : Params),
          Net again = Net params ->
          fst (Register (registerAll (snd (Register reg params)) later) again)
          = Some ErrDuplicateNet).
Proof.
  destruct (decide (Net params ∈ registeredNets reg)) as [Hin | Hout].
  - rewrite Register_duplicate by exact Hin. cbn [fst snd].
    split; [split; [intros _; exact Hin | discriminate] |].
    split; [intros err [= <-]; split; reflexivity | discriminate].
  - destruct (Register_fresh reg params Hout) as [Hnone Hnets].
    rewrite Hnone.
    split; [split; [intros Hne; contradiction | intros Hin; contradiction] |].
    split; [discriminate |].
    intros _ later again Hnet.
    rewrite Register_duplicate; [reflexivity |].
    apply (registerAll_keeps_nets later). rewrite Hnet.
    replace (registeredNets (snd (Register reg params)))
      with ({[Net params]} ∪ registeredNets reg).
    apply elem_of_union_l, elem_of_singleton. reflexivity.
Qed.

Lemma copyToArray4_length4 (l : list Byte.byte) :
  length l = 4%nat -> sliceOfArray4 (copyToArray4 l) = l.
Proof.
  intros Hl. destruct l as [| a [| b [| c [| d [| x l]]]]]; try discriminate Hl.
  reflexivity.
Qed.

(** C10. Registering a pair of 4-byte HD key IDs succeeds, and looking the
    private ID up afterwards returns exactly the registered public ID with
    no error; looking up an ID that is not 4 bytes long returns
    [ErrUnknownHDKeyID]. *)
Theorem HDPrivateKeyToPublicKeyID_after_register
    (reg : Registry) (hdPublicKeyID hdPrivateKeyID id : list Byte.byte) :
  length hdPublicKeyID = 4%nat ->
  length hdPrivateKeyID = 4%nat ->
  length id <> 4%nat ->
  (exists reg', RegisterHDKeyID reg hdPublicKeyID hdPrivateKeyID = (None, reg')
     /\ HDPrivateKeyToPublicKeyID reg' hdPrivateKeyID = (hdPublicKeyID, None))
  /\ HDPrivateKeyToPublicKeyID reg id = (nil, Some ErrUnknownHDKeyID).
Proof.
  intros Hpub Hpriv Hid. split.
  - unfold RegisterHDKeyID. rewrite Hpub, Hpriv. cbn [Nat.eqb negb orb].
    eexists. split; [reflexivity |].
    unfold HDPrivateKeyToPublicKeyID. rewrite Hpriv. cbn [Nat.eqb negb hdPrivToPubKeyIDs].
    rewrite lookup_insert_eq. reflexivity.
  - unfold HDPrivateKeyToPublicKeyID.
    destruct (Nat.eqb_spec (length id) 4) as [E | _]; [contradiction | reflexivity].
Qed.

Lemma HDPrivateKeyToPublicKeyID_after_register_witness :
  (exists reg', RegisterHDKeyID emptyRegistry
       (Byte.x04 :: Byte.x88 :: Byte.xb2 :: Byte.x1e :: nil)
       (Byte.x04 :: Byte.x88 :: Byte.xad :: Byte.xe4 :: nil) = (None, reg')
     /\ HDPrivateKeyToPublicKeyID reg' (Byte.x04 :: Byte.x88 :: Byte.xad :: Byte.xe4 :: nil)
        = (Byte.x04 :: Byte.x88 :: Byte.xb2 :: Byte.x1e :: nil, None))
  /\ HDPrivateKeyToPublicKeyID emptyRegistry (Byte.x04 :: Byte.x88 :: nil)
     = (nil, Some ErrUnknownHDKeyID).
Proof.
  apply (HDPrivateKeyToPublicKeyID_after_register emptyRegistry
           (Byte.x04 :: Byte.x88 :: Byte.xb2 :: Byte.x1e :: nil)
           (Byte.x04 :: Byte.x88 :: Byte.xad :: Byte.xe4 :: nil)
           (Byte.x04 :: Byte.x88 :: nil)).
  - reflexivity.
  - reflexivity.
  - simpl. lia.
Defined.

(** ** Worked examples *)

(** The scan of the gravity well started by [calcDiffAdjustKGW] ends before
    its fuel does. *)
Lemma calcDiffAdjustKGW_scan_ends `{Float64Ops} {R : Type} `{ReadSeeker R}
    (startheight : Z) (p : Params) (lastSolved : BlockHeader) (st : kgwState) (r : R) :
  result (kgwScan (Z.to_nat (maxBlocks + 1)) startheight p lastSolved 1 st r) <> Ret None.
Proof. apply kgwScan_fuel; unfold maxBlocks; lia. Qed.

(** The examples below do not depend on the float64 instance they are run
    with. *)
Lemma exactSpacing_any_float64 (F : Float64Ops) :
  result (BTCDiff (F := F) exactSpacingStore 2016 0 (RegressionNetParams 0)) = Ret 0x1c3fffc0
  /\ calcDiffAdjustBitcoin (F := F) (syntheticHeader 1296688602 600 0x1d00ffff 2016)
       (syntheticHeader 1296688602 600 0x1d00ffff 2015) (RegressionNetParams 0)
     = Ret 0x1c3fffc0
  /\ calcDiffAdjustBitcoin (F := F) (syntheticHeader 1296688602 600 0x1d00ffff 0)
       (syntheticHeader 1296688602 600 0x1d00ffff 2015) (RegressionNetParams 0)
     = Ret 0x1d03fffc.
Proof. repeat split; vm_compute; reflexivity. Qed.

Lemma twoEpochs_any_float64 (F : Float64Ops) :
  soughtOffsets (trace (LTCDiff (F := F) twoEpochStore 4032 0 (RegressionNetParams 0)))
  = 322480 :: 322560 :: 322560 :: 2016 :: nil
  /\ result (LTCDiff (F := F) twoEpochStore 4032 0 (RegressionNetParams 0)) = Ret 0
  /\ calcDiffAdjustBitcoin (F := F) (syntheticHeader 1296688602 600 0x1d00ffff 2016)
       (syntheticHeader 1296688602 600 0x1d00ffff 4031) (RegressionNetParams 0)
     = Ret 0x1d03fffc.
Proof. repeat split; vm_compute; reflexivity. Qed.

Lemma passThrough_any_float64 (F : Float64Ops) :
  result (BTCDiff (F := F) easyBitsStore 2 0 (TestNet3Params 0)) = Ret 0x207fffff
  /\ result (BTCDiff (F := F) unitTargetStore 2016 0 (TestNet3Params 0)) = Ret 0.
Proof. split; vm_compute; reflexivity. Qed.

Lemma mainnet_any_float64 (F : Float64Ops) :
  calcDiffAdjustBitcoin (F := F) (syntheticHeader 1389311371 150 0x1e0ffff0 0)
    (syntheticHeader 1389311371 150 0x1e0ffff0 2016) (MainNetParams 0) = Ret 0x1e0fffff.
Proof. vm_compute. reflexivity. Qed.

(** A scan that runs off the start of the store: 200 reads succeed, the seek
    before the 201st fails, and that error is the result. *)
Example calcDiffAdjustKGW_scan_aborts :
  result (calcDiffAdjustKGW (F := patientFloat64) shortStore 300 100 (RegressionNetParams 0))
  = Fail ErrNegativePosition
  /\ length (trace (calcDiffAdjustKGW (F := patientFloat64) shortStore 300 100
                      (RegressionNetParams 0))) = 401%nat
  /\ last (trace (calcDiffAdjustKGW (F := patientFloat64) shortStore 300 100
                    (RegressionNetParams 0)))
     = Some (Sought (-80) (Some ErrNegativePosition)).
Proof. repeat split; vm_compute; reflexivity. Qed.

(** C5, an instance: the main network parameters. *)
Lemma calcDiffAdjustBitcoin_clamped_witness :
  exists bits,
    calcDiffAdjustBitcoin (F := exampleFloat64) (syntheticHeader 1389311371 150 0x1e0ffff0 0)
      (syntheticHeader 1389311371 150 0x1e0ffff0 2016) (MainNetParams 0) = Ret bits
    /\ CompactToBig bits <= CompactToBig (PowLimitBits (MainNetParams 0)).
Proof.
  apply (calcDiffAdjustBitcoin_clamped (H := exampleFloat64)).
  - vm_compute. discriminate.
  - vm_compute. discriminate.
  - vm_compute. discriminate.
Defined.

(** C5 as stated fails for the [PowLimit] of the main network, [2^224 - 1]:
    a retarget from the bits of the genesis block is clamped to the decoded
    [PowLimitBits], which is larger. And for the zero parameter record the
    call returns nothing: it divides by zero. *)
Lemma calcDiffAdjustBitcoin_exceeds_PowLimit :
  calcDiffAdjustBitcoin (F := exampleFloat64) (syntheticHeader 1389311371 150 0x1e0ffff0 0)
    (syntheticHeader 1389311371 150 0x1e0ffff0 2016) (MainNetParams 0) = Ret 0x1e0fffff
  /\ PowLimit (MainNetParams 0) < CompactToBig 0x1e0fffff
  /\ calcDiffAdjustBitcoin (F := exampleFloat64) (syntheticHeader 1389311371 150 0x1e0ffff0 0)
       (syntheticHeader 1389311371 150 0x1e0ffff0 2016) zeroParams = Panic.
Proof.
  split; [| split].
  - exact (mainnet_any_float64 exampleFloat64).
  - vm_compute. reflexivity.
  - vm_compute. reflexivity.
Qed.

(** C7, an instance: the third header of [slowBlockStore] comes half an hour
    after the second. *)
Lemma min_difficulty_relaxation_witness :
  result (BTCDiff (F := exampleFloat64) slowBlockStore 2 0 (RegressionNetParams 0))
  = Ret 0x207fffff
  /\ result (LTCDiff (F := exampleFloat64) slowBlockStore 2 0 (RegressionNetParams 0))
     = Ret 0x207fffff.
Proof.
  eapply (min_difficulty_relaxation (H := exampleFloat64) slowBlockStore _ _ _ _ _ _ 2 0
            (RegressionNetParams 0) 2016).
  - reflexivity.
  - lia.
  - vm_compute. discriminate.
  - reflexivity.
  - vm_compute. split; [discriminate | reflexivity].
  - vm_compute. reflexivity.
  - vm_compute. reflexivity.
  - vm_compute. reflexivity.
  - vm_compute. reflexivity.
Defined.

(** C1, an instance: 2017 regtest headers ten minutes apart. *)
Lemma BTCDiff_first_boundary_witness :
  exists start newBits,
    In start (syntheticHeaders 2017 1296688602 600 0x1d00ffff)
    /\ result (BTCDiff (F := exampleFloat64)
                 (storeOf (syntheticHeaders 2017 1296688602 600 0x1d00ffff)) 2016 0
                 (RegressionNetParams 0)) = Ret newBits
    /\ calcDiffAdjustBitcoin (F := exampleFloat64) start
         (syntheticHeader 1296688602 600 0x1d00ffff 2015) (RegressionNetParams 0)
       = Ret newBits
    /\ (retargetDuration (F := exampleFloat64) start
          (syntheticHeader 1296688602 600 0x1d00ffff 2015) (RegressionNetParams 0)
        = Ret (int64 (Z.quot (TargetTimespan (RegressionNetParams 0)) Second)) ->
        BigToCompact (CompactToBig 0x1d00ffff) = 0x1d00ffff ->
        CompactToBig 0x1d00ffff <= CompactToBig (PowLimitBits (RegressionNetParams 0)) ->
        newBits = 0x1d00ffff).
Proof.
  apply (BTCDiff_first_boundary (H := exampleFloat64) (RegressionNetParams 0) 2016
           1296688602 600 0x1d00ffff).
  - vm_compute. reflexivity.
  - lia.
  - vm_compute. discriminate.
  - vm_compute. discriminate.
  - lia.
  - lia.
  - lia.
  - lia.
Defined.

(** C1 as stated fails: with 2017 headers exactly [TargetTimePerBlock]
    apart, all carrying [0x1d00ffff], [BTCDiff] returns [0x1c3fffc0] at the
    first epoch boundary. *)
Lemma BTCDiff_exact_spacing_changes_bits :
  result (BTCDiff (F := exampleFloat64) exactSpacingStore 2016 0 (RegressionNetParams 0))
  = Ret 0x1c3fffc0
  /\ 0x1c3fffc0 <> 0x1d00ffff.
Proof.
  split.
  - exact (proj1 (exactSpacing_any_float64 exampleFloat64)).
  - discriminate.
Qed.

(** C2, on the code: at height [epochLength] with start height 0, [BTCDiff]
    applies [calcDiffAdjustBitcoin] to header [epochLength] and header
    [epochLength - 1]; applied to header 0 and header [epochLength - 1] it
    gives other bits. *)
Theorem BTCDiff_boundary_ignores_header_0 :
  result (BTCDiff (F := exampleFloat64) exactSpacingStore 2016 0 (RegressionNetParams 0))
  = calcDiffAdjustBitcoin (F := exampleFloat64)
      (syntheticHeader 1296688602 600 0x1d00ffff 2016)
      (syntheticHeader 1296688602 600 0x1d00ffff 2015) (RegressionNetParams 0)
  /\ result (BTCDiff (F := exampleFloat64) exactSpacingStore 2016 0 (RegressionNetParams 0))
     = Ret 0x1c3fffc0
  /\ calcDiffAdjustBitcoin (F := exampleFloat64)
       (syntheticHeader 1296688602 600 0x1d00ffff 0)
       (syntheticHeader 1296688602 600 0x1d00ffff 2015) (RegressionNetParams 0)
     = Ret 0x1d03fffc.
Proof.
  destruct (exactSpacing_any_float64 exampleFloat64) as (Hrun & Hcur & Hfirst).
  split; [| split].
  - exact (eq_trans Hrun (eq_sym Hcur)).
  - exact Hrun.
  - exact Hfirst.
Qed.

(** C3, on the code: at the second epoch boundary [LTCDiff] seeks to byte
    [height - startheight - epochLength = 2016], not to header 2016 (byte
    161280), reads a header that straddles headers 25 and 26 and returns 0;
    [calcDiffAdjustBitcoin] on header 2016 and header 4031 gives
    [0x1d03fffc]. *)
Theorem LTCDiff_later_boundary_seeks_bytes :
  soughtOffsets (trace (LTCDiff (F := exampleFloat64) twoEpochStore 4032 0
                          (RegressionNetParams 0)))
  = 322480 :: 322560 :: 322560 :: 2016 :: nil
  /\ result (LTCDiff (F := exampleFloat64) twoEpochStore 4032 0 (RegressionNetParams 0))
     = Ret 0
  /\ calcDiffAdjustBitcoin (F := exampleFloat64)
       (syntheticHeader 1296688602 600 0x1d00ffff 2016)
       (syntheticHeader 1296688602 600 0x1d00ffff 4031) (RegressionNetParams 0)
     = Ret 0x1d03fffc.
Proof. exact (twoEpochs_any_float64 exampleFloat64). Qed.

(** C4, an instance: the testnet policy at height 2400 over [testnetStore]
    runs the gravity well, which clamps to [PowLimit]. *)
Lemma retarget_result_within_limit_witness :
  withinLimit (CompactToBig 0x1e0fffff) 0x1d00ffff.
Proof.
  apply (retarget_result_within_limit (H := exampleFloat64) testnetStore 2400 0
           (TestNet3Params 0) (CompactToBig 0x1e0fffff)
           (VTCTestDiff (F := exampleFloat64) testnetStore 2400 0 (TestNet3Params 0))).
  - unfold saneParams. vm_compute. repeat split; discriminate.
  - unfold withinLimit. vm_compute. split; discriminate.
  - vm_compute. split; discriminate.
  - right. right. right. left. reflexivity.
  - vm_compute. reflexivity.
  - apply headersWithin_check. vm_compute. reflexivity.
Defined.

(** C4 as stated fails twice over: bits copied from a stored header are
    returned as they are, here above both limits of the test network, and a
    retarget of the in-limit target 1 comes out as 0. *)
Lemma retarget_result_outside_limit :
  (result (BTCDiff (F := exampleFloat64) easyBitsStore 2 0 (TestNet3Params 0))
   = Ret 0x207fffff
   /\ PowLimit (TestNet3Params 0) < CompactToBig 0x207fffff
   /\ CompactToBig (PowLimitBits (TestNet3Params 0)) < CompactToBig 0x207fffff)
  /\ (result (BTCDiff (F := exampleFloat64) unitTargetStore 2016 0 (TestNet3Params 0))
      = Ret 0
      /\ CompactToBig 0x01010000 = 1
      /\ CompactToBig 0 = 0).
Proof.
  destruct (passThrough_any_float64 exampleFloat64) as [Heasy Hunit].
  split; [split; [exact Heasy | split] | split; [exact Hunit | split]];
    vm_compute; reflexivity.
Qed.
